(** * Tiled segmentation: planning, labelling, stitching and filtering

    A shallow embedding of [SegmentationWithSAM]
    (src/imaging/segmentation/mealworm_optical_image/tools/classes.py).

    Conventions of the embedding:
    - Python integers are [Z]; positions inside an array are [nat].
    - A 2-D numpy array is the list of its rows ([raster]); an array with
      no row is [[]] whatever its column count.
    - A Python call either returns a value or raises: [pyresult].
    - The ratios given to the tile planner and the eccentricity threshold
      are floating point in the source; they are rationals ([Q]) here, and
      [int(...)] is truncation toward zero.
    - The functions of numpy and scikit-image that the class calls are
      modelled from their documented behaviour in [numpy] and [skimage].
    - The repository does not pin its numpy.  Where the releases differ,
      in the store of a Python int into a [uint8] array, the release is a
      parameter of the model ([numpy.release]). *)

From Stdlib Require Import ZArith QArith Qround Lia.
From stdpp Require Import prelude.

Local Open Scope Z_scope.

(** ** Outcome of a Python call *)

Inductive pyresult (A : Type) : Type :=
  | Ret (a : A)
  | Raise.
Arguments Ret {A} a.
Arguments Raise {A}.

#[global] Instance pyresult_ret : MRet pyresult := @Ret.
#[global] Instance pyresult_bind : MBind pyresult := fun A B f x =>
  match x with
  | Ret a => f a
  | Raise => Raise
  end.

(** ** The tile planner: [calculate_slice_bboxes] *)

(** A box is [[(xmin, ymin), (xmax, ymax)]]. *)
Definition bbox : Type := (Z * Z) * (Z * Z).

(** Python's [int(x)] on a real number: truncation toward zero. *)
Definition py_int (q : Q) : Z :=
  if Qle_bool 0 q then Qfloor q else Qceiling q.

(** The inner [while x_max < image_width] loop.  [y_min] and [y_max] are
    those of the current row of tiles; the boxes are appended to
    [slice_bboxes].  [None] is the loop not having finished within [fuel]
    iterations. *)
Fixpoint row_loop (fuel : nat)
    (image_height image_width slice_height slice_width x_overlap : Z)
    (y_min y_max x_min x_max : Z) (slice_bboxes : list bbox)
    : option (list bbox) :=
  if x_max <? image_width then
    match fuel with
    | O => None
    | S fuel =>
        let x_max := x_min + slice_width in
        let slice_bboxes :=
          if (y_max >? image_height) || (x_max >? image_width) then
            let xmax := Z.min image_width x_max in
            let ymax := Z.min image_height y_max in
            let xmin := Z.max 0 (xmax - slice_width) in
            let ymin := Z.max 0 (ymax - slice_height) in
            slice_bboxes ++ [((xmin, ymin), (xmax, ymax))]
          else
            slice_bboxes ++ [((x_min, y_min), (x_max, y_max))] in
        let x_min := x_max - x_overlap in
        row_loop fuel image_height image_width slice_height slice_width
          x_overlap y_min y_max x_min x_max slice_bboxes
    end
  else Some slice_bboxes.

(** The outer [while y_max < image_height] loop; [fuel_x] bounds each run
    of the inner loop. *)
Fixpoint col_loop (fuel_x fuel : nat)
    (image_height image_width slice_height slice_width x_overlap y_overlap : Z)
    (y_min y_max : Z) (slice_bboxes : list bbox) : option (list bbox) :=
  if y_max <? image_height then
    match fuel with
    | O => None
    | S fuel =>
        let y_max := y_min + slice_height in
        match row_loop fuel_x image_height image_width slice_height
                slice_width x_overlap y_min y_max 0 0 slice_bboxes with
        | None => None
        | Some slice_bboxes =>
            let y_min := y_max - y_overlap in
            col_loop fuel_x fuel image_height image_width slice_height
              slice_width x_overlap y_overlap y_min y_max slice_bboxes
        end
    end
  else Some slice_bboxes.

Definition calculate_slice_bboxes (fuel : nat)
    (image_height image_width slice_height slice_width : Z)
    (overlap_height_ratio overlap_width_ratio : Q) : option (list bbox) :=
  let y_overlap := py_int (overlap_height_ratio * inject_Z slice_height) in
  let x_overlap := py_int (overlap_width_ratio * inject_Z slice_width) in
  col_loop fuel fuel image_height image_width slice_height slice_width
    x_overlap y_overlap 0 0 [].

(** What the claims say of a plan. *)
Definition box_has_size (slice_height slice_width : Z) (b : bbox) : Prop :=
  let '((xmin, ymin), (xmax, ymax)) := b in
  xmax - xmin = slice_width /\ ymax - ymin = slice_height.

Definition box_in_image (image_height image_width : Z) (b : bbox) : Prop :=
  let '((xmin, ymin), (xmax, ymax)) := b in
  0 <= xmin /\ xmin < xmax /\ xmax <= image_width /\
  0 <= ymin /\ ymin < ymax /\ ymax <= image_height.

Definition box_covers (x y : Z) (b : bbox) : Prop :=
  let '((xmin, ymin), (xmax, ymax)) := b in
  xmin <= x < xmax /\ ymin <= y < ymax.

(** The boxes of one row of tiles all span [[y_hi - slice_height, y_hi)]
    on the y axis. *)
Definition in_row (image_width slice_height slice_width y_hi : Z) (b : bbox)
    : Prop :=
  exists xmin xmax : Z,
    b = ((xmin, y_hi - slice_height), (xmax, y_hi)) /\
    xmax - xmin = slice_width /\ 0 <= xmin /\ xmax <= image_width.

(** ** Arrays *)

Abbreviation raster := (list (list Z)).
Abbreviation bool_raster := (list (list bool)).
Abbreviation pixel := (nat * nat)%type.

Module numpy.

Definition shape0 {A} (m : list (list A)) : nat := length m.
Definition shape1 {A} (m : list (list A)) : nat :=
  match m with
  | [] => 0%nat
  | row :: _ => length row
  end.

(** [zeros((h, w))] *)
Definition zeros (h w : nat) : raster := replicate h (replicate w 0).

(** [m[r, c]] at a position the caller keeps inside the array. *)
Definition item (m : raster) (r c : nat) : Z :=
  default 0 (m !! r ≫= (.!! c)).

(** The positions of an array, in raster order. *)
Definition indices {A} (m : list (list A)) : list pixel :=
  concat (imap (fun r row => imap (fun c _ => (r, c)) row) m).

(** A new value for every element, from its position and its old value. *)
Definition pmap {A B} (f : nat -> nat -> A -> B) (m : list (list A))
    : list (list B) :=
  imap (fun r row => imap (fun c v => f r c v) row) m.

Definition same_shape {A B} (a : list (list A)) (b : list (list B)) : bool :=
  bool_decide (length <$> a = length <$> b).

(** How a Python int is converted when it is stored into a [uint8] array
    depends on the release of numpy, which the repository does not pin.
    Releases before 2.0 keep the value modulo 256 (with a
    DeprecationWarning from 1.24 on); from 2.0 on, a value outside
    [0, 255] raises [OverflowError]. *)
Inductive release : Type := numpy1 | numpy2.

Definition uint8 (np : release) (v : Z) : pyresult Z :=
  match np with
  | numpy1 => Ret (v mod 256)
  | numpy2 => if bool_decide (0 <= v < 256) then Ret v else Raise
  end.

(** [labels[mask] = v] with a boolean [mask]: the mask must have the shape
    of the array. *)
Definition setitem_mask (mask : bool_raster) (v : Z) (labels : raster)
    : pyresult raster :=
  if same_shape mask labels then
    Ret (zip_with (zip_with (fun (b : bool) old => if b then v else old))
           mask labels)
  else Raise.

(** [labels[labels == target] = v] *)
Definition setitem_eq (target v : Z) (labels : raster) : raster :=
  fmap (M := list)
    (fmap (M := list) (fun old => if bool_decide (old = target) then v else old))
    labels.

(** A bound of a slice [a:b] on an axis of length [n]: negative bounds
    count from the end, and all are clamped to [0, n]. *)
Definition slice_index (n : nat) (i : Z) : nat :=
  if i <? 0 then Z.to_nat (Z.max 0 (i + Z.of_nat n))
  else Z.to_nat (Z.min i (Z.of_nat n)).

(** [m[a:, :]] and [m[:, a:]] *)
Definition rows_from (a : Z) (m : raster) : raster :=
  drop (slice_index (shape0 m) a) m.
Definition cols_from (a : Z) (m : raster) : raster :=
  fmap (M := list) (fun row => drop (slice_index (length row) a) row) m.

(** [labels[a:b, c:d] = src].  The block and [src] must have the same
    shape, up to broadcasting of an axis of length 1 of [src]; a [src] with
    no row fits any block with no row. *)
Definition setitem_slice (labels : raster) (a b c d : Z) (src : raster)
    : pyresult raster :=
  let r0 := slice_index (shape0 labels) a in
  let r1 := slice_index (shape0 labels) b in
  let c0 := slice_index (shape1 labels) c in
  let c1 := slice_index (shape1 labels) d in
  let h := (r1 - r0)%nat in
  let w := (c1 - c0)%nat in
  let p := shape0 src in
  let q := shape1 src in
  let fits_rows := bool_decide (p = h) || bool_decide (p = 1%nat) in
  let fits_cols :=
    bool_decide (p = 0%nat) || bool_decide (q = w) || bool_decide (q = 1%nat) in
  if fits_rows && fits_cols then
    Ret (pmap (fun r k old =>
                 if bool_decide (r0 <= r < r1 /\ c0 <= k < c1)%nat then
                   item src (if bool_decide (p = 1%nat) then 0 else r - r0)
                            (if bool_decide (q = 1%nat) then 0 else k - c0)
                 else old) labels)
  else Raise.

(** [len(unique(m))] *)
Definition count_unique (m : raster) : nat :=
  length (remove_dups (concat m)).

End numpy.

(** [sorted(l, key=key, reverse=True)]: descending by key, elements of
    equal key in their original order. *)
Fixpoint insert_desc {A} (key : A -> Z) (x : A) (l : list A) : list A :=
  match l with
  | [] => [x]
  | y :: l' => if key y <=? key x then x :: l else y :: insert_desc key x l'
  end.

Definition sorted_desc {A} (key : A -> Z) (l : list A) : list A :=
  foldr (insert_desc key) [] l.

(** ** scikit-image *)

Module skimage.
Import numpy.

Definition dist (a b : nat) : nat := ((a - b) + (b - a))%nat.

(** Neighbours under [connectivity=1] (an edge in common) or
    [connectivity=2] (an edge or a corner in common). *)
Definition adjacent (eight : bool) (p q : pixel) : bool :=
  let dr := dist p.1 q.1 in
  let dc := dist p.2 q.2 in
  if eight then bool_decide (dr <= 1 /\ dc <= 1 /\ p <> q)%nat
  else bool_decide (dr + dc = 1)%nat.

(** Two pixels are joined when they are neighbours and carry the same
    value. *)
Definition joined (eight : bool) (m : raster) (p q : pixel) : bool :=
  adjacent eight p q && bool_decide (item m p.1 p.2 = item m q.1 q.2).

(** The pixels reached from [seen] through joined pixels, by rounds. *)
Fixpoint flood (fuel : nat) (eight : bool) (m : raster) (seen : list pixel)
    : list pixel :=
  match fuel with
  | O => seen
  | S fuel =>
      flood fuel eight m
        (seen ++ filter (fun q => (q ∉ seen) /\
                           Exists (fun p => joined eight m p q = true) seen)
                   (indices m))
  end.

Definition component (eight : bool) (m : raster) (p : pixel) : list pixel :=
  flood (length (indices m)) eight m [p].

(** The first pixel, in raster order, of the component of [p]. *)
Definition root (eight : bool) (m : raster) (p : pixel) : pixel :=
  default p (head (filter (fun q => q ∈ component eight m p) (indices m))).

(** The roots of the components of non-zero pixels, in raster order. *)
Definition roots (eight : bool) (m : raster) : list pixel :=
  filter (fun q => item m q.1 q.2 <> 0 /\ root eight m q = q) (indices m).

Fixpoint index_of (p : pixel) (l : list pixel) : nat :=
  match l with
  | [] => 0%nat
  | q :: l => if bool_decide (q = p) then 0%nat else S (index_of p l)
  end.

(** Connected components of equal value, numbered from 1 in raster order
    of their first pixel; 0 stays 0. *)
Definition label_components (eight : bool) (m : raster) : raster :=
  let rs := roots eight m in
  pmap (fun r c v =>
          if bool_decide (v = 0) then 0
          else 1 + Z.of_nat (index_of (root eight m (r, c)) rs)) m.

(** [label(m, connectivity=connectivity)] on a 2-D array: the
    connectivity is 1 or 2. *)
Definition label (m : raster) (connectivity : Z) : pyresult raster :=
  if bool_decide (connectivity = 1) then Ret (label_components false m)
  else if bool_decide (connectivity = 2) then Ret (label_components true m)
  else Raise.

(** [find_boundaries(m, connectivity=1, mode="inner", background=0)]: a
    non-zero pixel one of whose edge neighbours inside the array carries
    another value. *)
Definition find_boundaries (m : raster) : bool_raster :=
  pmap (fun r c v =>
          bool_decide (v <> 0) &&
          bool_decide (Exists (fun q => adjacent false (r, c) q = true /\
                                        item m q.1 q.2 <> v) (indices m))) m.

(** [clear_border(m)]: a copy of [m] where every pixel is set to 0 whose
    component (of equal value, [connectivity=2]) has a pixel in the first
    or last row or column.  An array with an empty axis is refused. *)
Definition on_border (m : raster) (p : pixel) : bool :=
  bool_decide (p.1 = 0 \/ S p.1 = shape0 m \/ p.2 = 0 \/ S p.2 = shape1 m)%nat.

Definition clear_border (m : raster) : pyresult raster :=
  if bool_decide (shape0 m = 0 \/ shape1 m = 0)%nat then Raise
  else
    let labels := label_components true m in
    let borders_indices :=
      (fun p => item labels p.1 p.2) <$> filter (fun p => on_border m p = true)
                                           (indices m) in
    Ret (pmap (fun r c v =>
                 if bool_decide (item labels r c ∈ borders_indices) then 0
                 else v) m).

(** [regionprops(m)]: one region per positive value of [m], in increasing
    order of value, with the coordinates of its pixels. *)
Record region : Type := {
  region_label : Z;
  coords : list pixel
}.

Definition area (rg : region) : Z := Z.of_nat (length (coords rg)).

Definition coords_of (m : raster) (v : Z) : list pixel :=
  filter (fun p => item m p.1 p.2 = v) (indices m).

Definition regionprops (m : raster) : list region :=
  let top := Z.to_nat (foldr Z.max 0 (concat m)) in
  omap (fun k =>
          let v := Z.of_nat (S k) in
          match coords_of m v with
          | [] => None
          | ps => Some {| region_label := v; coords := ps |}
          end) (seq 0 top).

End skimage.

(** ** The class [SegmentationWithSAM] *)

Import numpy skimage.

(** [for x in l: s = body(s, x)], stopping at the first exception. *)
Fixpoint for_each {A S} (body : S -> A -> pyresult S) (l : list A) (s : S)
    : pyresult S :=
  match l with
  | [] => Ret s
  | x :: l => s' ← body s x; for_each body l s'
  end.

(** [enumerate(l)] *)
Definition enumerate {A} (l : list A) : list (nat * A) :=
  imap (fun n x => (n, x)) l.

(** A mask of the detector: the keys ["segmentation"] and ["area"]. *)
Record mask : Type := {
  segmentation : bool_raster;
  mask_area : Z
}.

(** The dictionary kept for one crop: the keys ["crop"], ["segments"] and
    ["labels"]. *)
Module crop_data.
Record t : Type := {
  crop : bbox;
  segments : nat;
  labels : raster
}.
Definition set_labels (m : raster) (d : t) : t :=
  {| crop := crop d; segments := segments d; labels := m |}.
End crop_data.

(** The attribute [labels] holds nothing, a label raster, or the list of
    the crops' dictionaries. *)
Inductive labels_attr : Type :=
  | NoLabels
  | Labels (m : raster)
  | CropLabels (tiles : list crop_data.t).

Record SegmentationWithSAM : Type := {
  image_lx : nat;
  image_ly : nat;
  characteristic_dimension : Z;
  slice_bboxes : option (list bbox);
  overlap : Z;
  connectivity : Z;
  thresh_area : Z * Z;
  thresh_eccentricity : Q;
  labels : labels_attr;
  segments : option nat
}.

(** The attributes as [__init__] sets them, for an image of the given
    shape. *)
Definition init (image_shape : nat * nat) : SegmentationWithSAM :=
  {| image_lx := image_shape.1;
     image_ly := image_shape.2;
     characteristic_dimension := 25;
     slice_bboxes := None;
     overlap := 20;
     connectivity := 1;
     thresh_area := (500, 5000);
     thresh_eccentricity := 7 # 10;
     labels := NoLabels;
     segments := None |}.

Definition set_labels (l : labels_attr) (self : SegmentationWithSAM)
    : SegmentationWithSAM :=
  {| image_lx := image_lx self;
     image_ly := image_ly self;
     characteristic_dimension := characteristic_dimension self;
     slice_bboxes := slice_bboxes self;
     overlap := overlap self;
     connectivity := connectivity self;
     thresh_area := thresh_area self;
     thresh_eccentricity := thresh_eccentricity self;
     labels := l;
     segments := segments self |}.

Definition set_segments (n : option nat) (self : SegmentationWithSAM)
    : SegmentationWithSAM :=
  {| image_lx := image_lx self;
     image_ly := image_ly self;
     characteristic_dimension := characteristic_dimension self;
     slice_bboxes := slice_bboxes self;
     overlap := overlap self;
     connectivity := connectivity self;
     thresh_area := thresh_area self;
     thresh_eccentricity := thresh_eccentricity self;
     labels := labels self;
     segments := n |}.

Definition set_slice_bboxes (b : option (list bbox))
    (self : SegmentationWithSAM) : SegmentationWithSAM :=
  {| image_lx := image_lx self;
     image_ly := image_ly self;
     characteristic_dimension := characteristic_dimension self;
     slice_bboxes := b;
     overlap := overlap self;
     connectivity := connectivity self;
     thresh_area := thresh_area self;
     thresh_eccentricity := thresh_eccentricity self;
     labels := labels self;
     segments := segments self |}.

(** *** [labels_from_sam_masks] *)

(** The value stored for the mask at position [idx] of the sorted list:
    [labels] is a [uint8] array and [idx] a Python int, so the store
    converts [idx], and fails where the conversion does. *)
Definition painted_value (np : release) (idx : nat) : pyresult Z :=
  uint8 np (Z.of_nat idx).

(** The body of [for idx, mask in enumerate(sorted_masks)]. *)
Definition paint (np : release) (labels : raster) (im : nat * mask)
    : pyresult raster :=
  let '(idx, mask) := im in
  let m := segmentation mask in
  v ← painted_value np idx;
  setitem_mask m v labels.

(** [image] is used for its shape only.  A bare [return] gives [None].
    [np] is the release of numpy that the code runs on. *)
Definition labels_from_sam_masks (np : release) (image_shape : nat * nat)
    (masks : list mask) : pyresult (option raster) :=
  if bool_decide (length masks = 0%nat) then Ret None
  else
    let labels := zeros image_shape.1 image_shape.2 in
    let sorted_masks := sorted_desc mask_area masks in
    labels ← for_each (paint np) (enumerate sorted_masks) labels;
    Ret (Some labels).

(** *** [merge_labels_after_stitching] *)

(** The body of the two inner loops, at the neighbour [(subr, subc)] of
    [(r, c)]. *)
Definition merge_neighbour (r c : nat) (labels : raster) (sub : pixel)
    : raster :=
  let '(subr, subc) := sub in
  if bool_decide (item labels subr subc <> 0 /\
                  item labels subr subc <> item labels r c) then
    let target := item labels subr subc in
    setitem_eq target (item labels r c) labels
  else labels.

(** The body of the two outer loops, at the pixel [(r, c)]. *)
Definition merge_pixel (rmax cmax : nat) (labels : raster) (p : pixel)
    : raster :=
  let '(r, c) := p in
  if bool_decide (0 < Z.of_nat r < Z.of_nat rmax - 1 /\
                  0 < Z.of_nat c < Z.of_nat cmax - 1 /\
                  item labels r c > 0) then
    foldl (fun labels subr =>
             foldl (fun labels subc => merge_neighbour r c labels (subr, subc))
               labels [(c - 1)%nat; c; (c + 1)%nat])
      labels [(r - 1)%nat; r; (r + 1)%nat]
  else labels.

Definition merge_labels_after_stitching (labels : raster) : raster :=
  let rmax := shape0 labels in
  let cmax := shape1 labels in
  foldl (fun labels r =>
           foldl (fun labels c => merge_pixel rmax cmax labels (r, c))
             labels (seq 0 cmax))
    labels (seq 0 rmax).

(** *** [slice_image] *)

Definition slice_image (fuel : nat) (self : SegmentationWithSAM)
    : option SegmentationWithSAM :=
  let slice_lx := 10 * characteristic_dimension self in
  let slice_ly := 10 * characteristic_dimension self in
  boxes ← calculate_slice_bboxes fuel (Z.of_nat (image_ly self))
             (Z.of_nat (image_lx self)) slice_ly slice_lx (2 # 10) (2 # 10);
  Some (set_slice_bboxes (Some boxes) self).

(** *** [stitch_labels] *)

(** The boundary pixels of a crop are set to 0 in the crop's own array. *)
Definition erase_boundaries (labels_crop : raster) : pyresult raster :=
  let boundary_matrix := find_boundaries labels_crop in
  setitem_mask boundary_matrix 0 labels_crop.

(** The four [if] statements that copy a crop into [labels]. *)
Definition composite (overlap : Z) (crop : bbox) (labels_crop labels : raster)
    : pyresult raster :=
  let '((xmin, ymin), (xmax, ymax)) := crop in
  labels ← (if bool_decide (xmin = ymin /\ ymin = 0) then
              setitem_slice labels xmin xmax ymin ymax labels_crop
            else Ret labels);
  labels ← (if bool_decide (xmin > 0 /\ ymin = 0) then
              setitem_slice labels (xmin + overlap) xmax ymin ymax
                (rows_from overlap labels_crop)
            else Ret labels);
  labels ← (if bool_decide (xmin = 0 /\ ymin > 0) then
              setitem_slice labels xmin xmax (ymin + overlap) ymax
                (cols_from overlap labels_crop)
            else Ret labels);
  if bool_decide (xmin > 0 /\ ymin > 0) then
    setitem_slice labels (xmin + overlap) xmax (ymin + overlap) ymax
      (cols_from overlap (rows_from overlap labels_crop))
  else Ret labels.

(** The body of [for n, val in enumerate(self.labels)].  The state is the
    list [self.labels], whose [n]-th dictionary owns the array that
    [labels_crop] names, and the raster [labels] being assembled. *)
Definition stitch_tile (overlap connectivity : Z)
    (st : list crop_data.t * raster) (nval : nat * crop_data.t)
    : pyresult (list crop_data.t * raster) :=
  let '(tiles, labels) := st in
  let '(n, val) := nval in
  let crop := crop_data.crop val in
  let labels_crop := crop_data.labels val in
  labels_crop ← erase_boundaries labels_crop;
  let tiles := <[n := crop_data.set_labels labels_crop val]> tiles in
  labels ← composite overlap crop labels_crop labels;
  labels ← label labels connectivity;
  let labels := merge_labels_after_stitching labels in
  labels ← label labels connectivity;
  Ret (tiles, labels).

(** The result is the object after the call and the value returned, [None]
    for a bare [return]. *)
Definition stitch_labels (self : SegmentationWithSAM)
    : pyresult (SegmentationWithSAM * option raster) :=
  match labels self with
  | NoLabels => Raise
  | Labels m =>
      if bool_decide (length m <= 1)%nat then Ret (self, None) else Raise
  | CropLabels tiles =>
      if bool_decide (length tiles <= 1)%nat then Ret (self, None)
      else
        let labels := zeros (image_lx self) (image_ly self) in
        st ← for_each (stitch_tile (overlap self) (connectivity self))
               (enumerate tiles) (tiles, labels);
        Ret (set_labels (CropLabels st.1) self, Some st.2)
  end.

(** *** Filtering *)

(** [len(unique(self.labels))] when [self.labels] is a raster. *)
Definition count_segments (m : raster) : nat := count_unique m.

Definition Qlt_bool (x y : Q) : bool := negb (Qle_bool y x).

Section Filtering.

(** The eccentricity of a region is a floating-point computation of
    scikit-image on the region's pixels; it is a parameter here. *)
Variable eccentricity : list pixel -> Q.

(** The body of [for region in regions]. *)
Definition filter_region (thresh_area : Z * Z) (thresh_eccentricity : Q)
    (labels : raster) (rg : region) : raster :=
  let labels :=
    if negb ((thresh_area.1 <=? area rg) && (area rg <=? thresh_area.2)) then
      setitem_eq (region_label rg) 0 labels
    else labels in
  if Qlt_bool (eccentricity (coords rg)) thresh_eccentricity then
    setitem_eq (region_label rg) 0 labels
  else labels.

Definition filter_labels_by_shape (self : SegmentationWithSAM)
    : pyresult SegmentationWithSAM :=
  match labels self with
  | Labels m =>
      let regions := regionprops m in
      let m :=
        foldl (filter_region (thresh_area self) (thresh_eccentricity self))
          m regions in
      m ← label m 1;
      Ret (set_segments (Some (count_segments m)) (set_labels (Labels m) self))
  | _ => Raise
  end.

Definition filter_labels_on_the_border (self : SegmentationWithSAM)
    : pyresult SegmentationWithSAM :=
  match labels self with
  | Labels m =>
      m ← clear_border m;
      Ret (set_segments (Some (count_segments m)) (set_labels (Labels m) self))
  | _ => Raise
  end.

(** The shape and area pass followed by the border pass. *)
Definition filter_chain (self : SegmentationWithSAM)
    : pyresult SegmentationWithSAM :=
  self ← filter_labels_by_shape self;
  filter_labels_on_the_border self.

End Filtering.

(** * Properties *)

(** ** The tile planner *)

Lemma py_int_ratio_bounds (ratio : Q) (size : Z) :
  (0 <= ratio)%Q -> (ratio < 1)%Q -> 1 <= size ->
  0 <= py_int (ratio * inject_Z size) < size.
Proof.
  intros H0 H1 Hs.
  assert (Hpos : (0 <= ratio * inject_Z size)%Q).
  { apply Qmult_le_0_compat; [done|]. change 0%Q with (inject_Z 0).
    rewrite <- Zle_Qle. lia. }
  unfold py_int. apply Qle_bool_iff in Hpos as Hb. rewrite Hb. split.
  - change 0 with (Qfloor 0). by apply Qfloor_resp_le.
  - rewrite Zlt_Qlt. eapply Qle_lt_trans; [apply Qfloor_le|].
    rewrite <- (Qmult_1_l (inject_Z size)) at 2.
    apply Qmult_lt_compat_r; [|done].
    change 0%Q with (inject_Z 0). rewrite <- Zlt_Qlt. lia.
Qed.

Section Planner.

Variables image_height image_width slice_height slice_width : Z.
Variables x_overlap y_overlap : Z.
Hypothesis height_ok : 1 <= slice_height <= image_height.
Hypothesis width_ok : 1 <= slice_width <= image_width.
Hypothesis x_overlap_ok : 0 <= x_overlap < slice_width.
Hypothesis y_overlap_ok : 0 <= y_overlap < slice_height.

Lemma row_loop_spec (fuel : nat) (y_min y_max : Z) :
  0 <= y_min -> y_max = y_min + slice_height ->
  forall (x_min x_max : Z) (acc : list bbox),
    0 <= x_min <= x_max ->
    (Z.to_nat (image_width - x_min) <= fuel)%nat ->
    exists new : list bbox,
      row_loop fuel image_height image_width slice_height slice_width
        x_overlap y_min y_max x_min x_max acc = Some (acc ++ new) /\
      Forall (in_row image_width slice_height slice_width
                (Z.min image_height y_max)) new /\
      forall x, x_max <= x < image_width ->
        exists b, b ∈ new /\ b.1.1 <= x < b.2.1.
Proof.
  intros Hy0 Hy. induction fuel as [|fuel IH]; intros x_min x_max acc Hx Hf.
  - simpl. case_match eqn:Hlt.
    + apply Z.ltb_lt in Hlt. lia.
    + apply Z.ltb_ge in Hlt. exists []. rewrite app_nil_r.
      split_and!; [done|constructor|]. lia.
  - simpl. case_match eqn:Hlt.
    2:{ apply Z.ltb_ge in Hlt. exists []. rewrite app_nil_r.
        split_and!; [done|constructor|]. lia. }
    apply Z.ltb_lt in Hlt.
    set (x_max' := x_min + slice_width).
    set (b := ((Z.min image_width x_max' - slice_width,
                Z.min image_height y_max - slice_height),
               (Z.min image_width x_max', Z.min image_height y_max)) : bbox).
    assert (Hbox :
      (if (y_max >? image_height) || (x_max' >? image_width)
       then acc ++ [((Z.max 0 (Z.min image_width x_max' - slice_width),
                      Z.max 0 (Z.min image_height y_max - slice_height)),
                     (Z.min image_width x_max', Z.min image_height y_max))]
       else acc ++ [((x_min, y_min), (x_max', y_max))]) = acc ++ [b]).
    { unfold b. case_match eqn:Hc.
      - do 2 f_equal. f_equal; f_equal; lia.
      - apply orb_false_iff in Hc as [H1 H2].
        rewrite Z.gtb_ltb in H1, H2. apply Z.ltb_ge in H1, H2.
        do 2 f_equal. f_equal; f_equal; lia. }
    rewrite Hbox.
    destruct (IH (x_max' - x_overlap) x_max' (acc ++ [b])) as (new & Hr & Hall & Hcov).
    { unfold x_max'. lia. }
    { unfold x_max'. lia. }
    exists (b :: new). split_and!.
    + rewrite Hr. by rewrite <- app_assoc.
    + constructor; [|done]. eexists _, _. split; [reflexivity|].
      unfold x_max'. lia.
    + intros x Hx'. destruct (decide (x < Z.min image_width x_max')) as [Hin|Hout].
      * exists b. split; [left|]. unfold b, x_max' in *. simpl. lia.
      * destruct (Hcov x) as (b' & Hb' & Hc'); [lia|].
        exists b'. split; [by right|done].
Qed.

Lemma col_loop_spec (fuel_x fuel : nat) :
  (Z.to_nat image_width <= fuel_x)%nat ->
  forall (y_min y_max : Z) (acc : list bbox),
    0 <= y_min <= y_max ->
    (Z.to_nat (image_height - y_min) <= fuel)%nat ->
    exists new : list bbox,
      col_loop fuel_x fuel image_height image_width slice_height slice_width
        x_overlap y_overlap y_min y_max acc = Some (acc ++ new) /\
      Forall (fun b => box_has_size slice_height slice_width b /\
                       box_in_image image_height image_width b) new /\
      forall x y, 0 <= x < image_width -> y_max <= y < image_height ->
        exists b, b ∈ new /\ box_covers x y b.
Proof.
  intros Hfx. induction fuel as [|fuel IH]; intros y_min y_max acc Hy Hf.
  - simpl. case_match eqn:Hlt.
    + apply Z.ltb_lt in Hlt. lia.
    + apply Z.ltb_ge in Hlt. exists []. rewrite app_nil_r.
      split_and!; [done|constructor|]. lia.
  - simpl. case_match eqn:Hlt.
    2:{ apply Z.ltb_ge in Hlt. exists []. rewrite app_nil_r.
        split_and!; [done|constructor|]. lia. }
    apply Z.ltb_lt in Hlt.
    set (y_max' := y_min + slice_height).
    destruct (row_loop_spec fuel_x y_min y_max' ltac:(lia) eq_refl 0 0 acc)
      as (row & Hrow & Hall & Hcov); [lia|lia|].
    rewrite Hrow.
    destruct (IH (y_max' - y_overlap) y_max' (acc ++ row))
      as (new & Hr & Hall' & Hcov').
    { unfold y_max'. lia. }
    { unfold y_max'. lia. }
    exists (row ++ new). split_and!.
    + rewrite Hr. by rewrite <- app_assoc.
    + apply Forall_app. split; [|done].
      apply (Forall_impl _ _ _ Hall).
      intros b (xmin & xmax & -> & Hw & Hx0 & Hx1). unfold y_max'. simpl. lia.
    + intros x y Hx Hy'.
      destruct (decide (y < Z.min image_height y_max')) as [Hin|Hout].
      * destruct (Hcov x) as (b & Hb & Hxb); [lia|].
        exists b. split; [apply elem_of_app; by left|].
        rewrite Forall_forall in Hall.
        destruct (Hall b Hb) as (xmin & xmax & -> & Hw & Hx0 & Hx1).
        simpl in *. unfold y_max' in *. lia.
      * destruct (Hcov' x y) as (b & Hb & Hc); [lia|lia|].
        exists b. split; [apply elem_of_app; by right|done].
Qed.

End Planner.

(** C6: for an image at least as large as a tile, tiles of at least one
    pixel and overlap ratios in [0, 1), the planner returns (given fuel for
    the two loops) boxes that all have the requested size, lie inside the
    image, and together cover every pixel of the image. *)
Theorem calculate_slice_bboxes_exact_cover
    (fuel : nat) (image_height image_width slice_height slice_width : Z)
    (overlap_height_ratio overlap_width_ratio : Q) :
  1 <= slice_height <= image_height ->
  1 <= slice_width <= image_width ->
  (0 <= overlap_height_ratio)%Q -> (overlap_height_ratio < 1)%Q ->
  (0 <= overlap_width_ratio)%Q -> (overlap_width_ratio < 1)%Q ->
  (Z.to_nat (Z.max image_height image_width) <= fuel)%nat ->
  exists boxes : list bbox,
    calculate_slice_bboxes fuel image_height image_width slice_height
      slice_width overlap_height_ratio overlap_width_ratio = Some boxes /\
    (forall b, b ∈ boxes ->
       box_has_size slice_height slice_width b /\
       box_in_image image_height image_width b) /\
    (forall x y, 0 <= x < image_width -> 0 <= y < image_height ->
       exists b, b ∈ boxes /\ box_covers x y b).
Proof.
  intros Hh Hw Hrh0 Hrh1 Hrw0 Hrw1 Hfuel.
  pose proof (py_int_ratio_bounds _ slice_height Hrh0 Hrh1 ltac:(lia)) as Hoy.
  pose proof (py_int_ratio_bounds _ slice_width Hrw0 Hrw1 ltac:(lia)) as Hox.
  destruct (col_loop_spec image_height image_width slice_height slice_width
              _ _ Hh Hw Hox Hoy fuel fuel ltac:(lia) 0 0 [] ltac:(lia) ltac:(lia))
    as (boxes & Hr & Hall & Hcov).
  exists boxes. split_and!.
  - exact Hr.
  - by apply Forall_forall.
  - intros x y Hx Hy. apply Hcov; lia.
Qed.

Lemma calculate_slice_bboxes_exact_cover_witness :
  exists boxes : list bbox,
    calculate_slice_bboxes 7 5 7 3 4 (1 # 2) (1 # 2) = Some boxes /\
    (forall b, b ∈ boxes -> box_has_size 3 4 b /\ box_in_image 5 7 b) /\
    (forall x y, 0 <= x < 7 -> 0 <= y < 5 ->
       exists b, b ∈ boxes /\ box_covers x y b).
Proof.
  apply (calculate_slice_bboxes_exact_cover 7 5 7 3 4 (1 # 2) (1 # 2));
    first [ lia | by vm_compute ].
Defined.

(** ** The tile labeler *)

Lemma length_insert_desc {A} (key : A -> Z) (x : A) (l : list A) :
  length (insert_desc key x l) = S (length l).
Proof.
  induction l as [|y l IH]; simpl; [done|].
  case_match; simpl; by rewrite ?IH.
Qed.

Lemma length_sorted_desc {A} (key : A -> Z) (l : list A) :
  length (sorted_desc key l) = length l.
Proof.
  induction l as [|x l IH]; simpl; [done|].
  by rewrite length_insert_desc, IH.
Qed.

(** C1 (the code at the failing input): on a one-pixel image with one mask
    that covers the pixel, the raster returned has value 0, the background,
    at that pixel, not the label 1; on either release of numpy. *)
Theorem labels_from_sam_masks_largest_gets_zero (np : release) :
  labels_from_sam_masks np (1, 1)%nat
    [{| segmentation := [[true]]; mask_area := 1 |}] = Ret (Some [[0]]).
Proof. by destruct np. Qed.

(** C5 as stated fails: with no mask the labeler does not return the
    all-zero raster of the image's shape, on either release of numpy. *)
Lemma labels_from_sam_masks_empty_not_zeros :
  labels_from_sam_masks numpy1 (2, 2)%nat [] <> Ret (Some (zeros 2 2)) /\
  labels_from_sam_masks numpy2 (2, 2)%nat [] <> Ret (Some (zeros 2 2)).
Proof. split; discriminate. Qed.

(** C5, amended: for every image, when the mask list is empty the tile
    labeler returns no raster at all ([None]). *)
Theorem labels_from_sam_masks_empty (np : release)
    (image_shape : nat * nat) :
  labels_from_sam_masks np image_shape [] = Ret None.
Proof. reflexivity. Qed.

(** ** Reading arrays *)

(** The element at a position, when the position is inside the array. *)
Definition at_pos {A} (m : list (list A)) (r c : nat) : option A :=
  m !! r ≫= (.!! c).

Lemma item_at_pos (m : raster) (r c : nat) :
  item m r c = default 0 (at_pos m r c).
Proof. reflexivity. Qed.

Lemma at_pos_pmap {A B} (f : nat -> nat -> A -> B) (m : list (list A)) r c :
  at_pos (pmap f m) r c = f r c <$> at_pos m r c.
Proof.
  unfold at_pos, pmap. rewrite list_lookup_imap.
  destruct (m !! r) as [row|]; simpl; [|done].
  by rewrite list_lookup_imap.
Qed.

Lemma at_pos_setitem_eq (target v : Z) (m : raster) r c :
  at_pos (setitem_eq target v m) r c =
  (fun old => if bool_decide (old = target) then v else old) <$> at_pos m r c.
Proof.
  unfold at_pos, setitem_eq. rewrite list_lookup_fmap.
  destruct (m !! r) as [row|]; simpl; [|done].
  by rewrite list_lookup_fmap.
Qed.

Lemma item_setitem_eq (target v : Z) (m : raster) r c :
  target <> 0 ->
  item (setitem_eq target v m) r c =
  if bool_decide (item m r c = target) then v else item m r c.
Proof.
  intros Ht. rewrite !item_at_pos, at_pos_setitem_eq.
  destruct (at_pos m r c) as [old|]; simpl; [done|].
  by rewrite bool_decide_eq_false_2.
Qed.

Lemma item_setitem_eq_zero (target : Z) (m : raster) r c :
  item (setitem_eq target 0 m) r c =
  if bool_decide (item m r c = target) then 0 else item m r c.
Proof.
  rewrite !item_at_pos, at_pos_setitem_eq.
  destruct (at_pos m r c) as [old|]; simpl; [done|].
  by case_bool_decide.
Qed.

Lemma shape0_setitem_eq target v (m : raster) :
  shape0 (setitem_eq target v m) = shape0 m.
Proof. unfold shape0, setitem_eq. by rewrite length_fmap. Qed.

Lemma shape1_setitem_eq target v (m : raster) :
  shape1 (setitem_eq target v m) = shape1 m.
Proof. destruct m; simpl; [done|]. by rewrite length_fmap. Qed.

(** ** The equivalence merge *)

(** A label survives in a raster when some pixel carries it. *)
Definition occurs (m : raster) (v : Z) : Prop :=
  exists r c : nat, item m r c = v.

(** A pixel that the scan takes as the centre of a neighbourhood. *)
Definition interior (rmax cmax : nat) (p : pixel) : Prop :=
  0 < Z.of_nat p.1 < Z.of_nat rmax - 1 /\ 0 < Z.of_nat p.2 < Z.of_nat cmax - 1.



(** The rasters reached from [m] by overwriting, one after the other, a
    non-zero label by a positive label that is present. *)
Inductive merges (m : raster) : raster -> Prop :=
  | merges_refl : merges m m
  | merges_step m' target v :
      merges m m' -> target <> 0 -> v > 0 -> target <> v -> occurs m' v ->
      merges m (setitem_eq target v m').

Lemma merges_trans (m1 m2 m3 : raster) :
  merges m1 m2 -> merges m2 m3 -> merges m1 m3.
Proof.
  intros H12 H23. induction H23; [done|]. by constructor.
Qed.

(** What a sequence of merges does to the labels: a renaming that fixes
    the background, keeps non-zero and positive labels so, and fixes every
    label that is still present. *)
Lemma merges_renaming (m m' : raster) :
  merges m m' ->
  exists f : Z -> Z,
    f 0 = 0 /\ (forall v, v <> 0 -> f v <> 0) /\ (forall v, v > 0 -> f v > 0) /\
    (forall r c, item m' r c = f (item m r c)) /\
    (forall v, occurs m' v -> f v = v).
Proof.
  induction 1 as [|m' target v _ (f & Hf0 & Hfn & Hfp & Hitem & Hfix) Ht Hv Hne Hocc].
  - exists id. by split_and!.
  - exists (fun x => if bool_decide (f x = target) then v else f x).
    split_and!.
    + rewrite Hf0. by rewrite bool_decide_eq_false_2.
    + intros x Hx. case_bool_decide; [lia|by apply Hfn].
    + intros x Hx. case_bool_decide; [lia|by apply Hfp].
    + intros r c. rewrite item_setitem_eq by done. by rewrite Hitem.
    + intros x (r & c & Hx). rewrite item_setitem_eq in Hx by done.
      case_bool_decide as Hc; subst x.
      * rewrite (Hfix v Hocc). by rewrite bool_decide_eq_false_2.
      * rewrite (Hfix (item m' r c)) by (by eexists _, _).
        by rewrite bool_decide_eq_false_2.
Qed.


Lemma merge_neighbour_merges (r c : nat) (m : raster) (sub : pixel) :
  item m r c > 0 -> merges m (merge_neighbour r c m sub).
Proof.
  intros Hpos. destruct sub as [subr subc]. unfold merge_neighbour.
  case_bool_decide as Hc; [|constructor].
  destruct Hc as [Hn0 Hne].
  apply merges_step; try done; [constructor|by eexists _, _].
Qed.

Lemma merge_neighbour_centre (r c : nat) (m : raster) (sub : pixel) :
  item (merge_neighbour r c m sub) r c = item m r c.
Proof.
  destruct sub as [subr subc]. unfold merge_neighbour.
  case_bool_decide as Hc; [|done]. destruct Hc as [Hn0 Hne].
  rewrite item_setitem_eq by done. by rewrite bool_decide_eq_false_2.
Qed.





Lemma merge_neighbours_merges (r c : nat) (subs : list pixel) (m : raster) :
  item m r c > 0 -> merges m (foldl (merge_neighbour r c) m subs).
Proof.
  revert m. induction subs as [|sub subs IH]; intros m Hpos; simpl.
  - constructor.
  - eapply merges_trans; [by apply merge_neighbour_merges|].
    apply IH. by rewrite merge_neighbour_centre.
Qed.

(** The nine positions that the two inner loops visit. *)
Definition neighbourhood (r c : nat) : list pixel :=
  subr ← [(r - 1)%nat; r; (r + 1)%nat];
  (fun subc => (subr, subc)) <$> [(c - 1)%nat; c; (c + 1)%nat].

Lemma merge_pixel_unfold (rmax cmax : nat) (m : raster) (r c : nat) :
  merge_pixel rmax cmax m (r, c) =
  if bool_decide (interior rmax cmax (r, c) /\ item m r c > 0)
  then foldl (merge_neighbour r c) m (neighbourhood r c) else m.
Proof.
  unfold merge_pixel, interior, neighbourhood. cbn [fst snd].
  cbn [mbind list_bind fmap list_fmap app foldl].
  case_bool_decide as H1; case_bool_decide as H2; try reflexivity; tauto.
Qed.


Lemma merge_pixel_merges (rmax cmax : nat) (m : raster) (p : pixel) :
  merges m (merge_pixel rmax cmax m p).
Proof.
  destruct p as [r c]. rewrite merge_pixel_unfold.
  case_bool_decide as H; [|constructor].
  apply merge_neighbours_merges. tauto.
Qed.


Lemma scan_merges (rmax cmax : nat) (ps : list pixel) (m : raster) :
  merges m (foldl (merge_pixel rmax cmax) m ps).
Proof.
  revert m. induction ps as [|p ps IH]; intros m; simpl; [constructor|].
  eapply merges_trans; [apply merge_pixel_merges|apply IH].
Qed.


(** The two outer loops visit the positions in raster order. *)
Definition scan_order (rmax cmax : nat) : list pixel :=
  r ← seq 0 rmax; (fun c => (r, c)) <$> seq 0 cmax.

Lemma foldl_bind {A B S} (f : S -> B -> S) (g : A -> list B) (l : list A) (s : S) :
  foldl f s (l ≫= g) = foldl (fun s a => foldl f s (g a)) s l.
Proof.
  revert s. induction l as [|a l IH]; intros s; simpl; [done|].
  by rewrite foldl_app, IH.
Qed.

Lemma foldl_fmap' {A B S} (f : S -> B -> S) (g : A -> B) (l : list A) (s : S) :
  foldl f s (g <$> l) = foldl (fun s a => f s (g a)) s l.
Proof. revert s. induction l as [|a l IH]; intros s; simpl; [done|]. apply IH. Qed.

Lemma foldl_grid {S} (f : S -> pixel -> S) (rows cols : list nat) (s : S) :
  foldl (fun s r => foldl (fun s c => f s (r, c)) s cols) s rows =
  foldl f s (r ← rows; (fun c => (r, c)) <$> cols).
Proof.
  rewrite foldl_bind. revert s.
  induction rows as [|r rows IH]; intros s; simpl; [done|].
  by rewrite foldl_fmap', IH.
Qed.

Lemma merge_labels_after_stitching_scan (labels : raster) :
  merge_labels_after_stitching labels =
  foldl (merge_pixel (shape0 labels) (shape1 labels)) labels
    (scan_order (shape0 labels) (shape1 labels)).
Proof.
  unfold merge_labels_after_stitching, scan_order.
  exact (foldl_grid (merge_pixel (shape0 labels) (shape1 labels)) _ _ labels).
Qed.





(** ** Stitching *)

(** The raster of a crop once its inner boundaries are set to 0. *)
Definition erased (labels_crop : raster) : raster :=
  zip_with (zip_with (fun (b : bool) old => if b then 0 else old))
    (find_boundaries labels_crop) labels_crop.

(** The dictionary of a crop after the stitcher has visited it. *)
Definition erased_crop (val : crop_data.t) : crop_data.t :=
  crop_data.set_labels (erased (crop_data.labels val)) val.

Lemma same_shape_pmap {A B} (f : nat -> nat -> A -> B) (m : list (list A)) :
  same_shape (pmap f m) m = true.
Proof.
  unfold same_shape, pmap. apply bool_decide_eq_true_2.
  apply list_eq. intros r. rewrite !list_lookup_fmap, list_lookup_imap.
  destruct (m !! r) as [row|]; [|done]. cbn. by rewrite length_imap.
Qed.

Lemma erase_boundaries_ret (labels_crop : raster) :
  erase_boundaries labels_crop = Ret (erased labels_crop).
Proof.
  unfold erase_boundaries, setitem_mask, find_boundaries.
  by rewrite same_shape_pmap.
Qed.

Lemma stitch_tile_store (overlap connectivity : Z) (tiles : list crop_data.t)
    (labels : raster) (n : nat) (val : crop_data.t)
    (st : list crop_data.t * raster) :
  stitch_tile overlap connectivity (tiles, labels) (n, val) = Ret st ->
  st.1 = <[n := erased_crop val]> tiles.
Proof.
  unfold stitch_tile. rewrite erase_boundaries_ret.
  cbn [mbind pyresult_bind].
  destruct (composite _ _ _ _) as [l1|]; cbn [mbind pyresult_bind];
    [|discriminate].
  destruct (label l1 connectivity) as [l2|]; cbn [mbind pyresult_bind];
    [|discriminate].
  destruct (label (merge_labels_after_stitching l2) connectivity) as [l3|];
    cbn [mbind pyresult_bind]; [|discriminate].
  intros [= <-]. reflexivity.
Qed.

Lemma for_each_stitch_store (overlap connectivity : Z) (rest : list crop_data.t) :
  forall (k : nat) (pre : list crop_data.t) (labels : raster)
         (st : list crop_data.t * raster),
    length pre = k ->
    for_each (stitch_tile overlap connectivity)
      (imap (fun n x => ((k + n)%nat, x)) rest) (pre ++ rest, labels) = Ret st ->
    st.1 = pre ++ (erased_crop <$> rest).
Proof.
  induction rest as [|val rest IH]; intros k pre labels st Hk.
  - cbn. intros [= <-]. reflexivity.
  - cbn [imap for_each mbind pyresult_bind].
    destruct (stitch_tile _ _ _ _) as [[tiles' labels']|] eqn:Hstep;
      [|discriminate].
    apply stitch_tile_store in Hstep. cbn [fst] in Hstep.
    rewrite <- Hk in Hstep. rewrite insert_app_r in Hstep.
    cbn [insert list_insert] in Hstep.
    intros Hrest.
    specialize (IH (S k) (pre ++ [erased_crop val]) labels' st).
    rewrite <- !app_assoc in IH. cbn [app fmap list_fmap] in IH |- *.
    rewrite Hstep in Hrest. apply IH.
    + rewrite length_app. cbn. lia.
    + erewrite imap_ext; [exact Hrest|].
      intros n x _. cbn. f_equal. lia.
Qed.

(** C4 as stated fails: with exactly one tile, covering the whole image,
    the stitcher returns no raster. *)
Lemma stitch_labels_single_tile_returns_none :
  let tile := {| crop_data.crop := ((0, 0), (2, 2));
                 crop_data.segments := 2;
                 crop_data.labels := [[0; 0]; [0; 1]] |} in
  let self := set_labels (CropLabels [tile]) (init (2, 2)%nat) in
  stitch_labels self = Ret (self, None) /\
  forall self' out, stitch_labels self <> Ret (self', Some out).
Proof. split; [reflexivity|discriminate]. Qed.

(** C4, amended: stitching a plan of exactly one tile (or of none) returns
    no raster at all ([None]) and leaves the object as it is: nothing is
    stitched. *)
Theorem stitch_labels_single_tile (self : SegmentationWithSAM)
    (tile : crop_data.t) :
  stitch_labels (set_labels (CropLabels [tile]) self)
    = Ret (set_labels (CropLabels [tile]) self, None) /\
  stitch_labels (set_labels (CropLabels []) self)
    = Ret (set_labels (CropLabels []) self, None).
Proof. split; reflexivity. Qed.

(** C7 as stated fails: after stitching two crops, the raster stored for
    the first crop has lost its boundary pixels. *)
Lemma stitch_labels_erases_in_place :
  let t0 := {| crop_data.crop := ((0, 0), (2, 2));
               crop_data.segments := 2;
               crop_data.labels := [[1; 1]; [1; 0]] |} in
  let t1 := {| crop_data.crop := ((1, 0), (3, 2));
               crop_data.segments := 2;
               crop_data.labels := [[0; 0]; [2; 2]] |} in
  let self := set_labels (CropLabels [t0; t1]) (init (3, 2)%nat) in
  exists self' out tiles',
    stitch_labels self = Ret (self', Some out) /\
    labels self' = CropLabels tiles' /\
    crop_data.labels <$> tiles' =
      [[[1; 0]; [0; 0]]; [[0; 0]; [0; 0]]] /\
    crop_data.labels <$> tiles' <> crop_data.labels <$> [t0; t1].
Proof.
  intros t0 t1 self.
  exists (set_labels (CropLabels [erased_crop t0; erased_crop t1]) self),
    [[1; 0]; [0; 0]; [0; 0]],
    [erased_crop t0; erased_crop t1].
  split_and!.
  - by vm_compute.
  - reflexivity.
  - by vm_compute.
  - by vm_compute.
Qed.

(** C7, amended: boundary erasure is done in place.  Whenever the stitcher
    returns a raster, the raster stored for every crop has been replaced by
    its eroded version (the inner boundary of each region set to 0); no
    copy of the input is kept. *)
Theorem stitch_labels_store (self self' : SegmentationWithSAM)
    (tiles : list crop_data.t) (out : raster) :
  labels self = CropLabels tiles ->
  stitch_labels self = Ret (self', Some out) ->
  labels self' = CropLabels (erased_crop <$> tiles).
Proof.
  intros Hl. unfold stitch_labels. rewrite Hl.
  case_bool_decide; [discriminate|].
  cbn [mbind pyresult_bind].
  destruct (for_each _ _ _) as [st|] eqn:Hloop; [|discriminate].
  intros [= <- <-].
  apply (for_each_stitch_store _ _ tiles 0%nat []) in Hloop; [|done].
  cbn [app] in Hloop. by rewrite Hloop.
Qed.

Lemma stitch_labels_store_witness :
  let t0 := {| crop_data.crop := ((0, 0), (2, 2));
               crop_data.segments := 2;
               crop_data.labels := [[1; 1]; [1; 0]] |} in
  let t1 := {| crop_data.crop := ((1, 0), (3, 2));
               crop_data.segments := 2;
               crop_data.labels := [[0; 0]; [2; 2]] |} in
  let self := set_labels (CropLabels [t0; t1]) (init (3, 2)%nat) in
  exists self',
    stitch_labels self
      = Ret (self', Some [[1; 0]; [0; 0]; [0; 0]]) /\
    labels self' = CropLabels (erased_crop <$> [t0; t1]).
Proof.
  intros t0 t1 self.
  exists (set_labels (CropLabels [erased_crop t0; erased_crop t1]) self).
  split; [by vm_compute|].
  apply (stitch_labels_store self _ [t0; t1]
           [[1; 0]; [0; 0]; [0; 0]]);
    [reflexivity|by vm_compute].
Defined.

(** ** Compositing a crop *)

(** An array of shape [(h, w)]. *)
Definition rect (h w : nat) (m : raster) : Prop :=
  length m = h /\ Forall (fun row => length row = w) m.

Lemma rect_at_pos (h w : nat) (m : raster) (r k : nat) :
  rect h w m -> (r < h)%nat -> (k < w)%nat -> is_Some (at_pos m r k).
Proof.
  intros [Hh Hw] Hr Hk. unfold at_pos.
  destruct (lookup_lt_is_Some_2 m r) as [row Hrow]; [lia|].
  rewrite Hrow. cbn. apply lookup_lt_is_Some_2.
  rewrite Forall_forall in Hw. rewrite (Hw row); [done|].
  by eapply list_elem_of_lookup_2.
Qed.

Lemma rect_shape1 (h w : nat) (m : raster) :
  rect h w m -> (0 < h)%nat -> shape1 m = w.
Proof.
  intros [Hh Hw] H0. destruct m as [|row m]; cbn in *; [lia|].
  by apply Forall_cons in Hw as [? _].
Qed.

Lemma item_pmap (f : nat -> nat -> Z -> Z) (m : raster) (r k : nat) :
  item (pmap f m) r k =
  match at_pos m r k with Some v => f r k v | None => 0 end.
Proof. rewrite item_at_pos, at_pos_pmap. by destruct (at_pos m r k). Qed.

Lemma setitem_slice_item (labels src : raster) (a b c d : Z) :
  let r0 := slice_index (shape0 labels) a in
  let r1 := slice_index (shape0 labels) b in
  let c0 := slice_index (shape1 labels) c in
  let c1 := slice_index (shape1 labels) d in
  shape0 src = (r1 - r0)%nat ->
  (shape0 src <> 0%nat -> shape1 src = (c1 - c0)%nat) ->
  (forall r k, (r0 <= r < r1)%nat -> (c0 <= k < c1)%nat ->
     is_Some (at_pos labels r k)) ->
  exists labels' : raster,
    setitem_slice labels a b c d src = Ret labels' /\
    forall r k,
      item labels' r k =
      if bool_decide ((r0 <= r < r1)%nat /\ (c0 <= k < c1)%nat)
      then item src (r - r0) (k - c0) else item labels r k.
Proof.
  intros r0 r1 c0 c1 Hp Hq Hin. unfold setitem_slice.
  fold r0 r1 c0 c1.
  assert (Hfit :
    (bool_decide (shape0 src = (r1 - r0)%nat) || bool_decide (shape0 src = 1%nat))
    && (bool_decide (shape0 src = 0%nat)
        || bool_decide (shape1 src = (c1 - c0)%nat)
        || bool_decide (shape1 src = 1%nat)) = true).
  { rewrite (bool_decide_eq_true_2 _ Hp). cbn [orb andb].
    destruct (decide (shape0 src = 0%nat)) as [H0|H0].
    - by rewrite (bool_decide_eq_true_2 _ H0).
    - rewrite (bool_decide_eq_true_2 _ (Hq H0)). by rewrite orb_true_r. }
  rewrite Hfit. eexists. split; [reflexivity|].
  intros r k. rewrite item_pmap.
  destruct (decide ((r0 <= r < r1)%nat /\ (c0 <= k < c1)%nat)) as [Hb|Hb].
  - rewrite (bool_decide_eq_true_2 _ Hb).
    destruct Hb as [Hr Hk]. destruct (Hin r k Hr Hk) as [v ->].
    assert (Hp0 : shape0 src <> 0%nat) by lia.
    specialize (Hq Hp0). clear Hfit. f_equal.
    + destruct (decide (shape0 src = 1%nat)) as [H1|H1].
      * rewrite (bool_decide_eq_true_2 _ H1). lia.
      * by rewrite (bool_decide_eq_false_2 _ H1).
    + destruct (decide (shape1 src = 1%nat)) as [H1|H1].
      * rewrite (bool_decide_eq_true_2 _ H1). lia.
      * by rewrite (bool_decide_eq_false_2 _ H1).
  - rewrite (bool_decide_eq_false_2 _ Hb).
    destruct (at_pos labels r k) as [v|] eqn:Hv.
    + rewrite item_at_pos. by rewrite Hv.
    + unfold item. fold (at_pos labels r k). by rewrite Hv.
Qed.

Lemma item_rows_from (a : Z) (m : raster) (i j : nat) :
  item (rows_from a m) i j = item m (slice_index (shape0 m) a + i) j.
Proof. unfold item, rows_from. by rewrite lookup_drop. Qed.

Lemma item_cols_from (w : nat) (a : Z) (m : raster) (i j : nat) :
  Forall (fun row => length row = w) m ->
  item (cols_from a m) i j = item m i (slice_index w a + j).
Proof.
  intros Hw. unfold item, cols_from. rewrite list_lookup_fmap.
  destruct (m !! i) as [row|] eqn:Hrow; cbn; [|done].
  rewrite lookup_drop. rewrite Forall_forall in Hw.
  rewrite (Hw row); [done|]. by eapply list_elem_of_lookup_2.
Qed.

Lemma rect_rows_from (h w : nat) (a : Z) (m : raster) :
  rect h w m -> rect (h - slice_index h a) w (rows_from a m).
Proof.
  intros [Hh Hw]. unfold rows_from, shape0. rewrite Hh. split.
  - rewrite length_drop. lia.
  - by apply Forall_drop.
Qed.

Lemma rect_cols_from (h w : nat) (a : Z) (m : raster) :
  rect h w m -> rect h (w - slice_index w a) (cols_from a m).
Proof.
  intros [Hh Hw]. unfold cols_from. split.
  - by rewrite length_fmap.
  - apply Forall_fmap. eapply Forall_impl; [exact Hw|].
    intros row Hrow. cbn. rewrite length_drop, Hrow. lia.
Qed.

Lemma slice_index_nonneg (n : nat) (i : Z) :
  0 <= i -> slice_index n i = Z.to_nat (Z.min i (Z.of_nat n)).
Proof.
  intros Hi. unfold slice_index.
  destruct (i <? 0) eqn:Hlt; [|done]. apply Z.ltb_lt in Hlt. lia.
Qed.

Lemma setitem_slice_rect (labels src : raster) (h w : nat) (a b c d : Z) :
  rect h w labels -> (0 < h)%nat ->
  0 <= a -> 0 <= b <= Z.of_nat h -> 0 <= c -> 0 <= d <= Z.of_nat w ->
  rect (Z.to_nat (b - a)) (Z.to_nat (d - c)) src ->
  exists labels' : raster,
    setitem_slice labels a b c d src = Ret labels' /\
    forall r k : nat,
      item labels' r k =
      if bool_decide (a <= Z.of_nat r < b /\ c <= Z.of_nat k < d)
      then item src (Z.to_nat (Z.of_nat r - a)) (Z.to_nat (Z.of_nat k - c))
      else item labels r k.
Proof.
  intros Hrect Hh Ha Hb Hc Hd Hsrc.
  pose proof (rect_shape1 _ _ _ Hrect Hh) as Hs1.
  destruct Hrect as [Hs0 Hrows]. fold (shape0 labels) in Hs0.
  destruct (setitem_slice_item labels src a b c d) as (labels' & Hret & Hitem).
  - rewrite Hs0, !slice_index_nonneg by lia. destruct Hsrc as [Hl _].
    unfold shape0. lia.
  - intros Hne. rewrite Hs1, !slice_index_nonneg by lia.
    rewrite (rect_shape1 _ _ _ Hsrc); [lia|].
    destruct Hsrc as [Hl _]. unfold shape0 in Hne. lia.
  - intros r k. rewrite Hs0, Hs1, !slice_index_nonneg by lia. intros Hr Hk.
    apply (rect_at_pos h w); [by split|lia|lia].
  - exists labels'. split; [done|]. intros r k. rewrite Hitem.
    rewrite Hs0, Hs1, !slice_index_nonneg by lia.
    destruct (decide (a <= Z.of_nat r < b /\ c <= Z.of_nat k < d)) as [Hin|Hout].
    + rewrite (bool_decide_eq_true_2 _ Hin).
      rewrite bool_decide_eq_true_2 by lia. f_equal; lia.
    + rewrite (bool_decide_eq_false_2 _ Hout).
      rewrite bool_decide_eq_false_2 by lia. done.
Qed.

(** The number of leading rows (columns) of a crop that the stitcher does
    not copy: [self.overlap] when the crop does not start at 0 on that
    axis. *)
Definition skipped (overlap start : Z) : Z :=
  if bool_decide (start > 0) then overlap else 0.

Ltac composite_conditions :=
  repeat match goal with
  | |- context [bool_decide ?P] =>
      first [ rewrite (bool_decide_eq_true_2 P) by lia
            | rewrite (bool_decide_eq_false_2 P) by lia ]
  end; cbn [mbind pyresult_bind].

(** What the four [if] statements do to the accumulator, for a crop that
    lies inside it. *)
Lemma composite_spec
    (overlap xmin ymin xmax ymax : Z) (labels_crop labels : raster)
    (h w : nat) :
  rect h w labels ->
  rect (Z.to_nat (xmax - xmin)) (Z.to_nat (ymax - ymin)) labels_crop ->
  0 <= overlap ->
  0 <= xmin < xmax -> xmax <= Z.of_nat h ->
  0 <= ymin < ymax -> ymax <= Z.of_nat w ->
  exists labels' : raster,
    composite overlap ((xmin, ymin), (xmax, ymax)) labels_crop labels
      = Ret labels' /\
    forall r c : nat,
      item labels' r c =
      if bool_decide (xmin + skipped overlap xmin <= Z.of_nat r < xmax /\
                      ymin + skipped overlap ymin <= Z.of_nat c < ymax)
      then item labels_crop (Z.to_nat (Z.of_nat r - xmin))
                            (Z.to_nat (Z.of_nat c - ymin))
      else item labels r c.
Proof.
  intros Hl Hc Hov Hx Hxh Hy Hyw.
  assert (Hh : (0 < h)%nat) by lia.
  pose proof Hc as [Hc0 Hcw].
  unfold composite, skipped.
  destruct (decide (xmin = 0)) as [Hx0|Hx0], (decide (ymin = 0)) as [Hy0|Hy0].
  - destruct (setitem_slice_rect labels labels_crop h w xmin xmax ymin ymax)
      as (labels' & Hret & Hitem); try done; try lia.
    composite_conditions. rewrite Hret. composite_conditions.
    exists labels'. split; [done|]. intros r c. rewrite Hitem.
    by rewrite !Z.add_0_r.
  - destruct (setitem_slice_rect labels (cols_from overlap labels_crop) h w
                xmin xmax (ymin + overlap) ymax)
      as (labels' & Hret & Hitem); try done; try lia.
    { apply rect_cols_from with (a := overlap) in Hc.
      rewrite slice_index_nonneg in Hc by lia.
      replace (Z.to_nat (ymax - (ymin + overlap)))
        with (Z.to_nat (ymax - ymin)
              - Z.to_nat (Z.min overlap (Z.of_nat (Z.to_nat (ymax - ymin)))))%nat
        by lia.
      done. }
    composite_conditions. rewrite Hret. composite_conditions.
    exists labels'. split; [done|]. intros r c. rewrite Hitem.
    rewrite !Z.add_0_r.
    destruct (decide (xmin <= Z.of_nat r < xmax /\
                      ymin + overlap <= Z.of_nat c < ymax)) as [Hin|Hout].
    + rewrite !(bool_decide_eq_true_2 _ Hin).
      rewrite (item_cols_from _ _ _ _ _ Hcw), slice_index_nonneg by lia.
      f_equal; lia.
    + by rewrite !(bool_decide_eq_false_2 _ Hout).
  - destruct (setitem_slice_rect labels (rows_from overlap labels_crop) h w
                (xmin + overlap) xmax ymin ymax)
      as (labels' & Hret & Hitem); try done; try lia.
    { apply rect_rows_from with (a := overlap) in Hc.
      rewrite slice_index_nonneg in Hc by lia.
      replace (Z.to_nat (xmax - (xmin + overlap)))
        with (Z.to_nat (xmax - xmin)
              - Z.to_nat (Z.min overlap (Z.of_nat (Z.to_nat (xmax - xmin)))))%nat
        by lia.
      done. }
    composite_conditions. rewrite Hret. composite_conditions.
    exists labels'. split; [done|]. intros r c. rewrite Hitem.
    rewrite !Z.add_0_r.
    destruct (decide (xmin + overlap <= Z.of_nat r < xmax /\
                      ymin <= Z.of_nat c < ymax)) as [Hin|Hout].
    + rewrite !(bool_decide_eq_true_2 _ Hin).
      rewrite item_rows_from. unfold shape0. rewrite Hc0.
      rewrite slice_index_nonneg by lia. f_equal; lia.
    + by rewrite !(bool_decide_eq_false_2 _ Hout).
  - destruct (setitem_slice_rect labels
                (cols_from overlap (rows_from overlap labels_crop)) h w
                (xmin + overlap) xmax (ymin + overlap) ymax)
      as (labels' & Hret & Hitem); try done; try lia.
    { apply rect_rows_from with (a := overlap) in Hc.
      apply rect_cols_from with (a := overlap) in Hc.
      rewrite !slice_index_nonneg in Hc by lia.
      replace (Z.to_nat (xmax - (xmin + overlap)))
        with (Z.to_nat (xmax - xmin)
              - Z.to_nat (Z.min overlap (Z.of_nat (Z.to_nat (xmax - xmin)))))%nat
        by lia.
      replace (Z.to_nat (ymax - (ymin + overlap)))
        with (Z.to_nat (ymax - ymin)
              - Z.to_nat (Z.min overlap (Z.of_nat (Z.to_nat (ymax - ymin)))))%nat
        by lia.
      done. }
    composite_conditions. rewrite Hret. composite_conditions.
    exists labels'. split; [done|]. intros r c. rewrite Hitem.
    destruct (decide (xmin + overlap <= Z.of_nat r < xmax /\
                      ymin + overlap <= Z.of_nat c < ymax)) as [Hin|Hout].
    + rewrite !(bool_decide_eq_true_2 _ Hin).
      rewrite (item_cols_from (Z.to_nat (ymax - ymin))).
      2:{ unfold rows_from. by apply Forall_drop. }
      rewrite item_rows_from. unfold shape0. rewrite Hc0.
      rewrite !slice_index_nonneg by lia. f_equal; lia.
    + by rewrite !(bool_decide_eq_false_2 _ Hout).
Qed.

Lemma item_replicate (h w : nat) (v : Z) (r c : nat) :
  (r < h)%nat -> (c < w)%nat -> item (replicate h (replicate w v)) r c = v.
Proof.
  intros Hr Hc. unfold item.
  rewrite (lookup_replicate_2 h (replicate w v) r Hr). cbn.
  by rewrite (lookup_replicate_2 w v c Hc).
Qed.

Lemma rect_replicate (h w : nat) (v : Z) : rect h w (replicate h (replicate w v)).
Proof.
  split; [apply length_replicate|].
  apply Forall_replicate. apply length_replicate.
Qed.

(** C2 as stated fails.  With the attributes of [__init__] and an image of
    450 x 250 pixels, the planner makes two crops that share the 50 rows
    [200, 250) (its overlap is [int(0.2 * 250) = 50]); when the second crop
    is copied, only [self.overlap = 20] rows are skipped, and the pixel
    (220, 0) of the shared band, which held 1, takes the crop's value 2. *)
Lemma composite_overwrites_shared_band :
  let self := init (450, 250)%nat in
  let labels := replicate 450 (replicate 250 1) in
  let labels_crop := replicate 250 (replicate 250 2) in
  py_int ((2 # 10) * inject_Z (10 * characteristic_dimension self)) = 50 /\
  (slice_bboxes <$> slice_image 2 self)
    = Some (Some [((0, 0), (250, 250)); ((200, 0), (450, 250))]) /\
  exists labels' : raster,
    composite (overlap self) ((200, 0), (450, 250)) labels_crop labels
      = Ret labels' /\
    item labels 220 0 = 1 /\ item labels' 220 0 = 2.
Proof.
  intros self labels labels_crop. split_and!.
  - by vm_compute.
  - by vm_compute.
  - destruct (composite_spec 20 200 0 450 250 labels_crop labels 450 250)
      as (labels' & Hret & Hitem);
      try apply rect_replicate; try lia.
    exists labels'. split_and!.
    + exact Hret.
    + apply item_replicate; lia.
    + rewrite Hitem. unfold skipped.
      rewrite (bool_decide_eq_true_2 (200 > 0)) by lia.
      rewrite (bool_decide_eq_false_2 (0 > 0)) by lia.
      rewrite bool_decide_eq_true_2 by lia.
      apply item_replicate; lia.
Qed.

(** ** Filtering *)

Lemma item_label_components_zero (eight : bool) (m : raster) (r c : nat) :
  item (label_components eight m) r c = 0 <-> item m r c = 0.
Proof.
  unfold label_components. rewrite item_pmap, (item_at_pos m).
  destruct (at_pos m r c) as [v|]; cbn [default]; [|done].
  case_bool_decide; [done|]. split; [lia|done].
Qed.

Lemma elem_of_coords_of (m : raster) (v : Z) (p : pixel) :
  p ∈ coords_of m v <-> item m p.1 p.2 = v /\ p ∈ indices m.
Proof.
  unfold coords_of.
  apply (list_elem_of_filter (fun q : pixel => item m q.1 q.2 = v)).
Qed.

Lemma elem_of_regionprops (m : raster) (rg : region) :
  rg ∈ regionprops m ->
  1 <= region_label rg /\ coords rg = coords_of m (region_label rg).
Proof.
  unfold regionprops. intros (k & _ & Hk)%list_elem_of_omap.
  destruct (coords_of m (Z.of_nat (S k))) as [|p ps] eqn:Hps; [done|].
  injection Hk as <-. cbn [region_label coords]. split; [lia|done].
Qed.

Lemma regionprops_label_inj (m : raster) (rg rg' : region) :
  rg ∈ regionprops m -> rg' ∈ regionprops m ->
  region_label rg' = region_label rg -> rg' = rg.
Proof.
  intros [_ H]%elem_of_regionprops [_ H']%elem_of_regionprops Heq.
  destruct rg, rg'. cbn in *. congruence.
Qed.

Section FilteringFacts.

Variable eccentricity : list pixel -> Q.

(** The two tests of the loop body. *)
Definition area_out_of_bounds (thresh_area : Z * Z) (rg : region) : bool :=
  negb ((thresh_area.1 <=? area rg) && (area rg <=? thresh_area.2)).

Definition too_round (thresh_eccentricity : Q) (rg : region) : bool :=
  Qlt_bool (eccentricity (coords rg)) thresh_eccentricity.

Lemma filter_region_item (ta : Z * Z) (te : Q) (m : raster) (rg : region)
    (r c : nat) :
  item (filter_region eccentricity ta te m rg) r c =
  if bool_decide (item m r c = region_label rg)
     && (area_out_of_bounds ta rg || too_round te rg)
  then 0 else item m r c.
Proof.
  unfold filter_region, area_out_of_bounds, too_round.
  destruct (negb _), (Qlt_bool _ _); cbn [orb];
    rewrite ?item_setitem_eq_zero, ?andb_true_r, ?andb_false_r; try done.
  repeat case_bool_decide; congruence.
Qed.

Lemma filter_regions_keep (ta : Z * Z) (te : Q) (rs : list region)
    (m : raster) (r c : nat) :
  (forall rg, rg ∈ rs -> item m r c = region_label rg ->
     area_out_of_bounds ta rg || too_round te rg = false) ->
  item (foldl (filter_region eccentricity ta te) m rs) r c = item m r c.
Proof.
  revert m. induction rs as [|rg rs IH]; intros m Hkeep; [done|].
  cbn [foldl].
  assert (Hstep : item (filter_region eccentricity ta te m rg) r c = item m r c).
  { rewrite filter_region_item. case_bool_decide as Heq; [|done].
    rewrite (Hkeep rg); [done|left|done]. }
  rewrite IH; [done|]. intros rg' Hin. rewrite Hstep.
  apply Hkeep. by right.
Qed.

Lemma filter_regions_zero_stays (ta : Z * Z) (te : Q) (rs : list region)
    (m : raster) (r c : nat) :
  item m r c = 0 ->
  item (foldl (filter_region eccentricity ta te) m rs) r c = 0.
Proof.
  revert m. induction rs as [|rg rs IH]; intros m H0; [done|].
  cbn [foldl]. apply IH. rewrite filter_region_item, H0.
  by destruct (_ && _).
Qed.

Lemma filter_regions_discard (ta : Z * Z) (te : Q) (rs : list region)
    (m : raster) (r c : nat) (rg : region) :
  rg ∈ rs -> item m r c = region_label rg ->
  area_out_of_bounds ta rg || too_round te rg = true ->
  item (foldl (filter_region eccentricity ta te) m rs) r c = 0.
Proof.
  revert m. induction rs as [|rg' rs IH]; intros m Hin Heq Hd.
  - by apply elem_of_nil in Hin.
  - cbn [foldl].
    destruct (decide (item (filter_region eccentricity ta te m rg') r c = 0))
      as [H0|Hn0]; [by apply filter_regions_zero_stays|].
    rewrite filter_region_item in Hn0.
    apply elem_of_cons in Hin as [-> | Hin].
    + rewrite Heq, Hd, bool_decide_eq_true_2 in Hn0 by done. done.
    + apply IH; [done| |done]. rewrite filter_region_item.
      destruct (_ && _); [done|]. exact Heq.
Qed.

(** C9, amended: the bounds of the area test are inclusive, but the area
    test is not the only one.  A region whose area equals [area_min] or
    [area_max] passes the area test; its pixels are set to 0 in the
    raster the method stores exactly when the eccentricity test of the
    same loop discards it (eccentricity below [thresh_eccentricity]), and
    are kept otherwise.  A region of area [area_min - 1] or
    [area_max + 1] has all its pixels set to 0. *)
Theorem filter_labels_by_shape_area_bounds
    (self : SegmentationWithSAM) (m : raster) (rg : region) (p : pixel) :
  labels self = Labels m ->
  (thresh_area self).1 <= (thresh_area self).2 ->
  rg ∈ regionprops m -> p ∈ coords rg ->
  exists m' : raster,
    filter_labels_by_shape eccentricity self
      = Ret (set_segments (Some (count_segments m'))
               (set_labels (Labels m') self)) /\
    (area rg = (thresh_area self).1 \/ area rg = (thresh_area self).2 ->
       area_out_of_bounds (thresh_area self) rg = false /\
       (item m' p.1 p.2 = 0 <->
        too_round (thresh_eccentricity self) rg = true)) /\
    (area rg = (thresh_area self).1 - 1 \/ area rg = (thresh_area self).2 + 1 ->
       area_out_of_bounds (thresh_area self) rg = true /\
       item m' p.1 p.2 = 0).
Proof.
  intros Hl Hbounds Hrg Hp.
  pose proof (elem_of_regionprops _ _ Hrg) as [Hpos Hcoords].
  rewrite Hcoords in Hp. apply elem_of_coords_of in Hp as [Hitem _].
  set (kept := foldl (filter_region eccentricity (thresh_area self)
                        (thresh_eccentricity self)) m (regionprops m)).
  exists (label_components false kept). split_and!.
  - unfold filter_labels_by_shape. rewrite Hl. reflexivity.
  - intros Harea.
    assert (Hin : area_out_of_bounds (thresh_area self) rg = false).
    { unfold area_out_of_bounds. apply negb_false_iff, andb_true_iff.
      split; apply Z.leb_le; lia. }
    split; [done|].
    rewrite item_label_components_zero. unfold kept.
    destruct (too_round (thresh_eccentricity self) rg) eqn:Hround.
    + split; [done|]. intros _.
      apply (filter_regions_discard _ _ _ _ _ _ rg); [done|done|].
      by rewrite Hin, Hround.
    + split; [|done]. rewrite filter_regions_keep; [lia|].
      intros rg' Hrg' Heq.
      rewrite (regionprops_label_inj m rg rg'); [|done|done|congruence].
      by rewrite Hin, Hround.
  - intros Harea.
    assert (Hout : area_out_of_bounds (thresh_area self) rg = true).
    { unfold area_out_of_bounds. apply negb_true_iff, andb_false_iff.
      destruct Harea; [left|right]; apply Z.leb_gt; lia. }
    split; [done|].
    apply item_label_components_zero. unfold kept.
    apply (filter_regions_discard _ _ _ _ _ _ rg); [done|done|].
    by rewrite Hout.
Qed.

End FilteringFacts.

Lemma filter_labels_by_shape_area_bounds_witness :
  let self := {| image_lx := 1; image_ly := 2;
                 characteristic_dimension := 25;
                 slice_bboxes := None;
                 overlap := 20;
                 connectivity := 1;
                 thresh_area := (2, 3);
                 thresh_eccentricity := 7 # 10;
                 labels := Labels [[1; 1]];
                 segments := None |} in
  exists m' : raster,
    filter_labels_by_shape (fun _ => 1%Q) self
      = Ret (set_segments (Some (count_segments m'))
               (set_labels (Labels m') self)) /\
    item m' 0 0 <> 0.
Proof.
  intros self.
  destruct (filter_labels_by_shape_area_bounds (fun _ => 1%Q) self [[1; 1]]
              {| region_label := 1; coords := [(0, 0); (0, 1)]%nat |}
              (0, 0)%nat)
    as (m' & Hret & Hkeep & _).
  - reflexivity.
  - cbn. lia.
  - apply list_elem_of_In. vm_compute. left. reflexivity.
  - apply list_elem_of_In. vm_compute. left. reflexivity.
  - exists m'. split; [exact Hret|].
    destruct Hkeep as [_ Hiff]; [left; reflexivity|].
    intros H0. apply Hiff in H0. discriminate H0.
Defined.

(** C9 as stated fails: a region whose area equals [area_min] is not
    always kept.  With the bounds (4, 5000) and the threshold 0.7 of
    [__init__], the 2 x 2 block has the area 4; scikit-image gives a square
    block the eccentricity 0, and for every eccentricity below 0.7 the
    second test of the loop sets the block to 0. *)
Lemma filter_labels_by_shape_zeroes_area_min :
  let self := {| image_lx := 2; image_ly := 2;
                 characteristic_dimension := 25;
                 slice_bboxes := None;
                 overlap := 20;
                 connectivity := 1;
                 thresh_area := (4, 5000);
                 thresh_eccentricity := 7 # 10;
                 labels := Labels [[1; 1]; [1; 1]];
                 segments := None |} in
  let block := [(0, 0); (0, 1); (1, 0); (1, 1)]%nat in
  exists rg : region,
    regionprops [[1; 1]; [1; 1]] = [rg] /\
    coords rg = block /\
    area rg = (thresh_area self).1 /\
    forall eccentricity : list pixel -> Q,
      (eccentricity block < 7 # 10)%Q ->
      filter_labels_by_shape eccentricity self
      = Ret (set_segments (Some 1%nat)
               (set_labels (Labels [[0; 0]; [0; 0]]) self)).
Proof.
  cbv zeta.
  exists {| region_label := 1; coords := [(0, 0); (0, 1); (1, 0); (1, 1)]%nat |}.
  split_and!; [by vm_compute|done|done|].
  intros eccentricity Hecc.
  unfold filter_labels_by_shape. cbn [labels].
  replace (regionprops [[1; 1]; [1; 1]])
    with [{| region_label := 1;
             coords := [(0, 0); (0, 1); (1, 0); (1, 1)]%nat |}]
    by (by vm_compute).
  cbn [foldl]. unfold filter_region.
  cbn [coords region_label thresh_eccentricity thresh_area].
  assert (Hlt : Qlt_bool (eccentricity [(0, 0); (0, 1); (1, 0); (1, 1)]%nat)
                  (7 # 10) = true).
  { unfold Qlt_bool. apply negb_true_iff.
    destruct (Qle_bool _ _) eqn:E; [|done].
    apply Qle_bool_iff in E. by apply Qlt_not_le in Hecc. }
  rewrite Hlt. by vm_compute.
Qed.

(** ** Connected components *)

Lemma filter_ext_in {A} (P Q : A -> Prop) `{!forall x, Decision (P x)}
    `{!forall x, Decision (Q x)} (l : list A) :
  (forall x, x ∈ l -> P x <-> Q x) -> filter P l = filter Q l.
Proof.
  induction l as [|x l IH]; intros Hext; [done|].
  rewrite !filter_cons.
  assert (Hx : P x <-> Q x) by (apply Hext; left).
  assert (Hl : filter P l = filter Q l).
  { apply IH. intros y Hy. apply Hext. by right. }
  destruct (decide (P x)), (decide (Q x)); rewrite ?Hl; tauto.
Qed.

Lemma imap_imap {A B C} (f : nat -> A -> B) (g : nat -> B -> C) (l : list A) :
  imap g (imap f l) = imap (fun i x => g i (f i x)) l.
Proof.
  revert f g. induction l as [|x l IH]; intros f g; [done|].
  rewrite !imap_cons. f_equal. apply IH.
Qed.

Lemma pmap_pmap {A B C} (f : nat -> nat -> A -> B) (g : nat -> nat -> B -> C)
    (m : list (list A)) :
  pmap g (pmap f m) = pmap (fun r c v => g r c (f r c v)) m.
Proof.
  unfold pmap. rewrite imap_imap. apply imap_ext. intros r row _.
  apply imap_imap.
Qed.

Lemma pmap_ext {A B} (f g : nat -> nat -> A -> B) (m : list (list A)) :
  (forall r c v, at_pos m r c = Some v -> f r c v = g r c v) ->
  pmap f m = pmap g m.
Proof.
  intros H. unfold pmap. apply imap_ext. intros r row Hr.
  apply imap_ext. intros c v Hc. apply H.
  unfold at_pos. by rewrite Hr.
Qed.

Lemma indices_pmap {A B} (f : nat -> nat -> A -> B) (m : list (list A)) :
  indices (pmap f m) = indices m.
Proof.
  unfold indices, pmap. f_equal. rewrite imap_imap.
  apply imap_ext. intros r row _. apply imap_imap.
Qed.

Lemma elem_of_indices {A} (m : list (list A)) (p : pixel) :
  p ∈ indices m <-> is_Some (at_pos m p.1 p.2).
Proof.
  unfold indices, at_pos. rewrite list_elem_of_In, in_concat. split.
  - intros (l & Hl & Hp). apply list_elem_of_In in Hl, Hp.
    apply elem_of_lookup_imap in Hl as (r & row & -> & Hr).
    apply elem_of_lookup_imap in Hp as (c & v & -> & Hc).
    cbn [fst snd]. rewrite Hr. cbn. by rewrite Hc.
  - intros [v Hv]. destruct p as [r c]. cbn [fst snd] in Hv.
    destruct (m !! r) as [row|] eqn:Hr; [|done]. cbn in Hv.
    exists (imap (fun c _ => (r, c)) row). split; apply list_elem_of_In.
    + apply (elem_of_lookup_imap_2 (fun r row => imap (fun c _ => (r, c)) row)).
      exact Hr.
    + apply (elem_of_lookup_imap_2 (fun c _ => (r, c)) row v c Hv).
Qed.

Lemma index_of_inj (p q : pixel) (l : list pixel) :
  p ∈ l -> q ∈ l -> index_of p l = index_of q l -> p = q.
Proof.
  induction l as [|x l IH]; intros Hp Hq; [by apply elem_of_nil in Hp|].
  cbn [index_of]. repeat case_bool_decide; try congruence.
  intros [=]. apply IH; [| |done].
  - apply elem_of_cons in Hp as [|]; [congruence|done].
  - apply elem_of_cons in Hq as [|]; [congruence|done].
Qed.

Section Components.

Variable eight : bool.
Variable m : raster.

(** The pixels one round of [flood] adds. *)
Definition frontier (seen : list pixel) : list pixel :=
  filter (fun q => (q ∉ seen) /\
                   Exists (fun p => joined eight m p q = true) seen)
    (indices m).

(** The number of positions that are not yet seen. *)
Definition unseen (seen : list pixel) : nat :=
  length (filter (fun q => q ∉ seen) (indices m)).

(** One step from a pixel to a joined position of the array. *)
Definition link (p q : pixel) : Prop :=
  joined eight m p q = true /\ q ∈ indices m.

Lemma flood_S (n : nat) (seen : list pixel) :
  flood (S n) eight m seen = flood n eight m (seen ++ frontier seen).
Proof. reflexivity. Qed.

Lemma elem_of_frontier (seen : list pixel) (q : pixel) :
  q ∈ frontier seen <->
  ((q ∉ seen) /\ exists p, p ∈ seen /\ joined eight m p q = true) /\
  q ∈ indices m.
Proof.
  unfold frontier.
  rewrite (list_elem_of_filter
             (fun q => (q ∉ seen) /\
                Exists (fun p => joined eight m p q = true) seen)).
  by rewrite Exists_exists.
Qed.

Lemma flood_closed (n : nat) (seen : list pixel) :
  frontier seen = [] -> flood n eight m seen = seen.
Proof.
  intros H. induction n as [|n IH]; [done|].
  by rewrite flood_S, H, app_nil_r.
Qed.

Lemma unseen_step (seen : list pixel) :
  frontier seen <> [] -> (unseen (seen ++ frontier seen) < unseen seen)%nat.
Proof.
  intros Hne. destruct (frontier seen) as [|x l] eqn:Hf; [done|].
  assert (Hx : x ∈ frontier seen) by (rewrite Hf; left).
  apply elem_of_frontier in Hx as [[Hx _] HxI].
  unfold unseen.
  rewrite <- (filter_ext_in
                (fun q => (q ∉ seen ++ x :: l) /\ (q ∉ seen))
                (fun q => q ∉ seen ++ x :: l)).
  - rewrite <- (list_filter_filter (fun q => q ∉ seen ++ x :: l)
                  (fun q => q ∉ seen)).
    apply (length_filter_lt _ _ x).
    + apply (list_elem_of_filter (fun q => q ∉ seen)). done.
    + intros Hn. apply Hn. apply elem_of_app. right. left.
  - intros y _. rewrite elem_of_app. tauto.
Qed.

Lemma flood_reaches_closed (n : nat) (seen : list pixel) :
  (unseen seen <= n)%nat -> frontier (flood n eight m seen) = [].
Proof.
  revert seen. induction n as [|n IH]; intros seen Hn.
  - cbn [flood]. destruct (frontier seen) as [|x l] eqn:Hf; [done|].
    assert (Hx : x ∈ frontier seen) by (rewrite Hf; left).
    apply elem_of_frontier in Hx as [[Hx _] HxI].
    unfold unseen in Hn.
    assert (H0 : filter (fun q => q ∉ seen) (indices m) = []).
    { apply length_zero_iff_nil. lia. }
    by destruct (filter_nil_not_elem_of (fun q => q ∉ seen) _ x H0 Hx).
  - destruct (decide (frontier seen = [])) as [Hc|Hc].
    + by rewrite flood_closed.
    + rewrite flood_S. apply IH. apply unseen_step in Hc. lia.
Qed.

Lemma flood_incl (n : nat) (seen : list pixel) (p : pixel) :
  p ∈ seen -> p ∈ flood n eight m seen.
Proof.
  revert seen. induction n as [|n IH]; intros seen Hp; [done|].
  rewrite flood_S. apply IH, elem_of_app. by left.
Qed.

Lemma flood_sound (n : nat) (seen : list pixel) (q : pixel) :
  q ∈ flood n eight m seen -> exists p, p ∈ seen /\ rtc link p q.
Proof.
  revert seen. induction n as [|n IH]; intros seen Hq.
  - by exists q.
  - rewrite flood_S in Hq. apply IH in Hq as (p & Hp & Hpq).
    apply elem_of_app in Hp as [Hp|Hp]; [by exists p|].
    apply elem_of_frontier in Hp as [[_ (p0 & Hp0 & Hj)] HpI].
    exists p0. split; [done|]. by apply (rtc_l _ _ p).
Qed.

Lemma closed_rtc (seen : list pixel) (p q : pixel) :
  frontier seen = [] -> p ∈ seen -> rtc link p q -> q ∈ seen.
Proof.
  intros Hc Hp Hpq. induction Hpq as [|x y z [Hj Hy] _ IH]; [done|].
  apply IH. destruct (decide (y ∈ seen)) as [|Hn]; [done|].
  assert (Hf : y ∈ frontier seen).
  { apply elem_of_frontier. split; [|done]. split; [done|]. by exists x. }
  rewrite Hc in Hf. by apply elem_of_nil in Hf.
Qed.

Lemma elem_of_component (p q : pixel) :
  q ∈ component eight m p <-> rtc link p q.
Proof.
  unfold component. split.
  - intros (p' & Hp' & H)%flood_sound.
    apply list_elem_of_singleton in Hp' as ->. done.
  - apply closed_rtc.
    + apply flood_reaches_closed. unfold unseen. apply length_filter.
    + apply flood_incl. left.
Qed.

Lemma dist_sym (a b : nat) : dist a b = dist b a.
Proof. unfold dist. lia. Qed.

Lemma joined_sym (p q : pixel) : joined eight m p q = joined eight m q p.
Proof.
  unfold joined, adjacent. rewrite (dist_sym p.1), (dist_sym p.2).
  f_equal.
  - destruct eight; [|done]. apply bool_decide_ext.
    split; intros (? & ? & ?); repeat split; try done; congruence.
  - apply bool_decide_ext. split; congruence.
Qed.

Lemma link_value (p q : pixel) :
  rtc link p q -> item m p.1 p.2 = item m q.1 q.2.
Proof.
  induction 1 as [|x y z [Hj _] _ IH]; [done|].
  rewrite <- IH. unfold joined in Hj.
  apply andb_true_iff in Hj as [_ Hj]. by apply bool_decide_eq_true in Hj.
Qed.

Lemma link_inside (p q : pixel) :
  rtc link p q -> p ∈ indices m -> q ∈ indices m.
Proof. induction 1 as [|x y z [_ Hy] _ IH]; [done|]. intros _. by apply IH. Qed.

Lemma link_sym (p q : pixel) :
  rtc link p q -> p ∈ indices m -> rtc link q p.
Proof.
  induction 1 as [|x y z [Hj Hy] _ IH]; [done|]. intros Hx.
  apply (rtc_r _ y); [by apply IH|]. split; [|done]. by rewrite joined_sym.
Qed.

Lemma component_same (p q : pixel) :
  p ∈ indices m -> rtc link p q ->
  forall x, x ∈ component eight m p <-> x ∈ component eight m q.
Proof.
  intros Hp Hpq x. rewrite !elem_of_component. split; intros H.
  - eapply rtc_trans; [by apply link_sym|done].
  - by eapply rtc_trans.
Qed.

Lemma root_spec (p : pixel) :
  p ∈ indices m -> root eight m p ∈ indices m /\ rtc link p (root eight m p).
Proof.
  intros Hp. unfold root.
  destruct (filter (fun q => q ∈ component eight m p) (indices m))
    as [|x l] eqn:Hf.
  - exfalso.
    apply (filter_nil_not_elem_of (fun q => q ∈ component eight m p) _ p Hf);
      [|done]. by apply elem_of_component.
  - cbn [head default].
    assert (Hx : x ∈ filter (fun q => q ∈ component eight m p) (indices m))
      by (rewrite Hf; left).
    apply (list_elem_of_filter (fun q => q ∈ component eight m p)) in Hx
      as [Hx HxI].
    split; [done|]. by apply elem_of_component.
Qed.

Lemma root_same (p q : pixel) :
  p ∈ indices m -> rtc link p q -> root eight m p = root eight m q.
Proof.
  intros Hp Hpq.
  assert (Hq : q ∈ indices m) by by apply (link_inside p).
  pose proof (filter_ext_in (fun x => x ∈ component eight m p)
                (fun x => x ∈ component eight m q) (indices m)
                (fun x _ => component_same p q Hp Hpq x)) as Hf.
  unfold root. rewrite Hf.
  destruct (filter (fun x => x ∈ component eight m q) (indices m))
    as [|x l] eqn:Hfq; [|done].
  exfalso.
  apply (filter_nil_not_elem_of (fun x => x ∈ component eight m q) _ q Hfq);
    [|done]. by apply elem_of_component.
Qed.

Lemma root_root (p : pixel) :
  p ∈ indices m -> root eight m (root eight m p) = root eight m p.
Proof.
  intros Hp. destruct (root_spec p Hp) as [_ H].
  symmetry. by apply root_same.
Qed.

Lemma root_value (p : pixel) :
  p ∈ indices m ->
  item m (root eight m p).1 (root eight m p).2 = item m p.1 p.2.
Proof.
  intros Hp. destruct (root_spec p Hp) as [_ H]. symmetry. by apply link_value.
Qed.

Lemma root_in_roots (p : pixel) :
  p ∈ indices m -> item m p.1 p.2 <> 0 -> root eight m p ∈ roots eight m.
Proof.
  intros Hp Hv. unfold roots.
  apply (list_elem_of_filter
           (fun q => item m q.1 q.2 <> 0 /\ root eight m q = q)).
  split; [|by apply root_spec]. split.
  - by rewrite root_value.
  - by apply root_root.
Qed.

End Components.

(** Relabelling a raster that [label_components] produced changes
    nothing: the pixels joined in the result are those joined in the
    argument. *)
Section Relabelling.

Variable eight : bool.
Variable m : raster.

Lemma indices_label_components :
  indices (label_components eight m) = indices m.
Proof. apply indices_pmap. Qed.

Lemma item_label_components (p : pixel) :
  p ∈ indices m ->
  item (label_components eight m) p.1 p.2 =
  if bool_decide (item m p.1 p.2 = 0) then 0
  else 1 + Z.of_nat (index_of (root eight m p) (roots eight m)).
Proof.
  intros [v Hv]%elem_of_indices. unfold label_components.
  rewrite item_pmap, (item_at_pos m), Hv. cbn [default]. by destruct p.
Qed.

Lemma joined_label_components (p q : pixel) :
  p ∈ indices m -> q ∈ indices m ->
  joined eight (label_components eight m) p q = joined eight m p q.
Proof.
  intros Hp Hq. unfold joined.
  destruct (adjacent eight p q) eqn:Hadj; [|done]. cbn [andb].
  apply bool_decide_ext.
  rewrite (item_label_components p Hp), (item_label_components q Hq).
  split.
  - intros Heq.
    destruct (decide (item m p.1 p.2 = 0)) as [Hp0|Hp0];
      destruct (decide (item m q.1 q.2 = 0)) as [Hq0|Hq0].
    + congruence.
    + rewrite (bool_decide_eq_true_2 _ Hp0), (bool_decide_eq_false_2 _ Hq0)
        in Heq. lia.
    + rewrite (bool_decide_eq_false_2 _ Hp0), (bool_decide_eq_true_2 _ Hq0)
        in Heq. lia.
    + rewrite (bool_decide_eq_false_2 _ Hp0), (bool_decide_eq_false_2 _ Hq0)
        in Heq.
      assert (Hr : root eight m p = root eight m q).
      { apply (index_of_inj _ _ (roots eight m));
          [by apply root_in_roots|by apply root_in_roots|lia]. }
      rewrite <- (root_value eight m p Hp), <- (root_value eight m q Hq).
      by rewrite Hr.
  - intros Heq.
    assert (Hr : root eight m p = root eight m q).
    { apply root_same; [done|]. apply rtc_once. split; [|done].
      unfold joined. rewrite Hadj. by apply bool_decide_eq_true_2. }
    by rewrite Heq, Hr.
Qed.

Lemma frontier_label_components (seen : list pixel) :
  Forall (fun p => p ∈ indices m) seen ->
  frontier eight (label_components eight m) seen = frontier eight m seen.
Proof.
  intros Hseen. unfold frontier. rewrite indices_label_components.
  apply filter_ext_in. intros q Hq. rewrite !Exists_exists.
  rewrite Forall_forall in Hseen.
  split; intros [Hn (p & Hp & Hj)]; (split; [done|]); exists p;
    (split; [done|]).
  - rewrite <- joined_label_components; [done|by apply Hseen|done].
  - rewrite joined_label_components; [done|by apply Hseen|done].
Qed.

Lemma flood_label_components (n : nat) (seen : list pixel) :
  Forall (fun p => p ∈ indices m) seen ->
  flood n eight (label_components eight m) seen = flood n eight m seen.
Proof.
  revert seen. induction n as [|n IH]; intros seen Hseen; [done|].
  rewrite !flood_S, frontier_label_components by done.
  apply IH. apply Forall_app. split; [done|].
  apply Forall_forall. intros q Hq. by apply elem_of_frontier in Hq as [_ ?].
Qed.

Lemma root_label_components (p : pixel) :
  p ∈ indices m ->
  root eight (label_components eight m) p = root eight m p.
Proof.
  intros Hp. unfold root, component.
  rewrite indices_label_components, flood_label_components; [done|].
  by apply Forall_singleton.
Qed.

Lemma roots_label_components :
  roots eight (label_components eight m) = roots eight m.
Proof.
  unfold roots. rewrite indices_label_components.
  apply filter_ext_in. intros q Hq.
  rewrite (root_label_components q Hq).
  pose proof (item_label_components_zero eight m q.1 q.2). tauto.
Qed.

Lemma label_components_idemp :
  label_components eight (label_components eight m) = label_components eight m.
Proof.
  set (F := fun (r c : nat) (v : Z) =>
              if bool_decide (v = 0) then 0
              else 1 + Z.of_nat (index_of (root eight m (r, c))
                                   (roots eight m))).
  assert (Hm : label_components eight m = pmap F m) by reflexivity.
  assert (H1 : label_components eight (label_components eight m)
               = pmap F (label_components eight m)).
  { unfold label_components at 1. apply pmap_ext. intros r c v Hv.
    rewrite roots_label_components, (root_label_components (r, c)); [done|].
    rewrite <- indices_label_components. apply elem_of_indices. by exists v. }
  rewrite H1, Hm, pmap_pmap. apply pmap_ext. intros r c v _. unfold F.
  repeat case_bool_decide; try done; lia.
Qed.

End Relabelling.

(** ** Running the filters again *)

Lemma shape0_pmap {A B} (f : nat -> nat -> A -> B) (m : list (list A)) :
  shape0 (pmap f m) = shape0 m.
Proof. unfold shape0, pmap. apply length_imap. Qed.

Lemma shape1_pmap {A B} (f : nat -> nat -> A -> B) (m : list (list A)) :
  shape1 (pmap f m) = shape1 m.
Proof.
  destruct m as [|row m]; [done|]. unfold pmap. rewrite imap_cons.
  cbn [shape1]. apply length_imap.
Qed.

(** The raster [clear_border] returns for an array that is not empty. *)
Definition border_cleared (m : raster) : raster :=
  let labels := label_components true m in
  let borders_indices :=
    (fun p => item labels p.1 p.2) <$> filter (fun p => on_border m p = true)
                                         (indices m) in
  pmap (fun r c v =>
          if bool_decide (item labels r c ∈ borders_indices) then 0
          else v) m.

Lemma clear_border_unfold (m : raster) :
  clear_border m =
  if bool_decide (shape0 m = 0 \/ shape1 m = 0)%nat then Raise
  else Ret (border_cleared m).
Proof. reflexivity. Qed.

Lemma item_border_cleared_zero (m : raster) (r c : nat) :
  item m r c = 0 -> item (border_cleared m) r c = 0.
Proof.
  intros H. unfold border_cleared. cbv zeta. rewrite item_pmap.
  rewrite item_at_pos in H. destruct (at_pos m r c) as [v|]; [|done].
  cbn in H. subst v. by case_bool_decide.
Qed.

Lemma filter_labels_on_the_border_ret (self : SegmentationWithSAM)
    (m : raster) :
  labels self = Labels m -> (shape0 m <> 0 /\ shape1 m <> 0)%nat ->
  filter_labels_on_the_border self =
  Ret (set_segments (Some (count_segments (border_cleared m)))
         (set_labels (Labels (border_cleared m)) self)).
Proof.
  intros Hl Hs. unfold filter_labels_on_the_border.
  rewrite Hl, clear_border_unfold, bool_decide_eq_false_2 by lia.
  reflexivity.
Qed.

Lemma filter_labels_on_the_border_inv (self self' : SegmentationWithSAM) :
  filter_labels_on_the_border self = Ret self' ->
  exists m, labels self = Labels m /\
    (shape0 m <> 0 /\ shape1 m <> 0)%nat /\
    self' = set_segments (Some (count_segments (border_cleared m)))
              (set_labels (Labels (border_cleared m)) self).
Proof.
  unfold filter_labels_on_the_border.
  destruct (labels self) as [|m|tiles] eqn:Hl; try done.
  rewrite clear_border_unfold. case_bool_decide as Hs; [done|].
  intros [= <-]. exists m. split_and!; try done; lia.
Qed.

Lemma foldl_ext_all {A B} (f g : A -> B -> A) (l : list B) (a : A) :
  (forall a b, f a b = g a b) -> foldl f a l = foldl g a l.
Proof.
  intros H. revert a. induction l as [|b l IH]; intros a; [done|].
  cbn [foldl]. by rewrite H, IH.
Qed.

Section SecondRun.

Variable eccentricity : list pixel -> Q.

(** The raster [filter_labels_by_shape] stores. *)
Definition shape_filtered (ta : Z * Z) (te : Q) (m : raster) : raster :=
  label_components false
    (foldl (filter_region eccentricity ta te) m (regionprops m)).

Lemma filter_labels_by_shape_ret (self : SegmentationWithSAM) (m : raster) :
  labels self = Labels m ->
  filter_labels_by_shape eccentricity self =
  Ret (set_segments
         (Some (count_segments
                  (shape_filtered (thresh_area self)
                     (thresh_eccentricity self) m)))
         (set_labels
            (Labels (shape_filtered (thresh_area self)
                       (thresh_eccentricity self) m)) self)).
Proof. intros Hl. unfold filter_labels_by_shape. rewrite Hl. reflexivity. Qed.

Lemma filter_labels_by_shape_inv (self self' : SegmentationWithSAM) :
  filter_labels_by_shape eccentricity self = Ret self' ->
  exists m, labels self = Labels m /\
    self' = set_segments
              (Some (count_segments
                       (shape_filtered (thresh_area self)
                          (thresh_eccentricity self) m)))
              (set_labels
                 (Labels (shape_filtered (thresh_area self)
                            (thresh_eccentricity self) m)) self).
Proof.
  destruct (labels self) as [|m|tiles] eqn:Hl.
  - unfold filter_labels_by_shape. by rewrite Hl.
  - rewrite (filter_labels_by_shape_ret self m Hl). intros [= <-]. by exists m.
  - unfold filter_labels_by_shape. by rewrite Hl.
Qed.

Lemma shape0_filter_region (ta : Z * Z) (te : Q) (m : raster) (rg : region) :
  shape0 (filter_region eccentricity ta te m rg) = shape0 m.
Proof.
  unfold filter_region.
  destruct (negb _), (Qlt_bool _ _); by rewrite ?shape0_setitem_eq.
Qed.

Lemma shape1_filter_region (ta : Z * Z) (te : Q) (m : raster) (rg : region) :
  shape1 (filter_region eccentricity ta te m rg) = shape1 m.
Proof.
  unfold filter_region.
  destruct (negb _), (Qlt_bool _ _); by rewrite ?shape1_setitem_eq.
Qed.

Lemma shape_shape_filtered (ta : Z * Z) (te : Q) (m : raster) :
  shape0 (shape_filtered ta te m) = shape0 m /\
  shape1 (shape_filtered ta te m) = shape1 m.
Proof.
  unfold shape_filtered, label_components.
  rewrite shape0_pmap, shape1_pmap.
  generalize (regionprops m). intros rs. revert m.
  induction rs as [|rg rs IH]; intros m; [done|]. cbn [foldl].
  destruct (IH (filter_region eccentricity ta te m rg)) as [-> ->].
  by rewrite shape0_filter_region, shape1_filter_region.
Qed.

Lemma shape_border_cleared (m : raster) :
  shape0 (border_cleared m) = shape0 m /\
  shape1 (border_cleared m) = shape1 m.
Proof. unfold border_cleared. cbv zeta. by rewrite shape0_pmap, shape1_pmap. Qed.

Lemma filter_regions_all_pass (ta : Z * Z) (te : Q) (rs : list region)
    (m : raster) :
  (forall rg, rg ∈ rs ->
     area_out_of_bounds ta rg || too_round eccentricity te rg = false) ->
  foldl (filter_region eccentricity ta te) m rs = m.
Proof.
  induction rs as [|rg rs IH]; intros Hpass; [done|]. cbn [foldl].
  assert (Hrg : filter_region eccentricity ta te m rg = m).
  { destruct (orb_false_elim _ _ (Hpass rg ltac:(left))) as [Ha He].
    unfold filter_region. unfold area_out_of_bounds in Ha.
    unfold too_round in He. by rewrite Ha, He. }
  rewrite Hrg. apply IH. intros rg' Hin. apply Hpass. by right.
Qed.

(** X1: a second run of the filter chain on the output of a first run.
    It returns, and every pixel that is background in the first output is
    background in the second; and when the border pass of the first run
    removed nothing and every region of the first output passes the area
    and the eccentricity test, the second run returns the first output
    unchanged (same raster, same region count). *)
Theorem filter_chain_second_run (self self1 : SegmentationWithSAM) :
  filter_chain eccentricity self = Ret self1 ->
  exists m1 m2 : raster,
    labels self1 = Labels m1 /\
    filter_chain eccentricity self1
      = Ret (set_segments (Some (count_segments m2))
               (set_labels (Labels m2) self1)) /\
    (forall r c, item m1 r c = 0 -> item m2 r c = 0) /\
    ((exists self0, filter_labels_by_shape eccentricity self = Ret self0 /\
                    labels self0 = labels self1) ->
     (forall rg, rg ∈ regionprops m1 ->
        area_out_of_bounds (thresh_area self) rg
        || too_round eccentricity (thresh_eccentricity self) rg = false) ->
     filter_chain eccentricity self1 = Ret self1).
Proof.
  intros H. unfold filter_chain in H.
  destruct (filter_labels_by_shape eccentricity self) as [self0|] eqn:H0;
    [|done].
  cbn [mbind pyresult_bind] in H.
  destruct (filter_labels_by_shape_inv _ _ H0) as (m0 & Hl & ->).
  apply filter_labels_on_the_border_inv in H as (a & Hla & [Hs0 Hs1] & ->).
  cbn [labels set_segments set_labels] in Hla. injection Hla as Ha.
  set (ta := thresh_area self) in *. set (te := thresh_eccentricity self) in *.
  assert (Hshape : forall m : raster, shape0 m = shape0 a -> shape1 m = shape1 a ->
            (shape0 m <> 0 /\ shape1 m <> 0)%nat).
  { intros m -> ->. done. }
  assert (Hb : (shape0 (border_cleared a) <> 0 /\
                shape1 (border_cleared a) <> 0)%nat).
  { apply Hshape; apply shape_border_cleared. }
  assert (Hsf : forall m : raster, (shape0 m <> 0 /\ shape1 m <> 0)%nat ->
            (shape0 (shape_filtered ta te m) <> 0 /\
             shape1 (shape_filtered ta te m) <> 0)%nat).
  { intros m Hm. by destruct (shape_shape_filtered ta te m) as [-> ->]. }
  exists (border_cleared a),
         (border_cleared (shape_filtered ta te (border_cleared a))).
  split_and!.
  - reflexivity.
  - unfold filter_chain.
    rewrite (filter_labels_by_shape_ret _ (border_cleared a)) by reflexivity.
    cbn [mbind pyresult_bind].
    rewrite (filter_labels_on_the_border_ret _
               (shape_filtered ta te (border_cleared a)));
      [reflexivity|reflexivity|by apply Hsf].
  - intros r c Hz. apply item_border_cleared_zero. unfold shape_filtered.
    apply item_label_components_zero. by apply filter_regions_zero_stays.
  - intros (self0 & Hs & Hlab) Hpass.
    injection Hs as <-.
    cbn [labels set_segments set_labels] in Hlab. injection Hlab as Hab.
    rewrite Ha in Hab.
    assert (Hre : shape_filtered ta te (border_cleared a) = a).
    { unfold shape_filtered at 1.
      rewrite filter_regions_all_pass by exact Hpass.
      rewrite <- Hab, <- Ha. unfold shape_filtered.
      apply label_components_idemp. }
    unfold filter_chain.
    rewrite (filter_labels_by_shape_ret _ (border_cleared a)) by reflexivity.
    cbn [mbind pyresult_bind].
    rewrite (filter_labels_on_the_border_ret _
               (shape_filtered ta te (border_cleared a)));
      [|reflexivity|by apply Hsf].
    cbn [thresh_area thresh_eccentricity set_segments set_labels].
    fold ta te. rewrite Hre, <- Hab, <- Ha. reflexivity.
Qed.

Lemma filter_labels_by_shape_ext (eccentricity' : list pixel -> Q)
    (self : SegmentationWithSAM) :
  (forall ps, Qlt_bool (eccentricity ps) (thresh_eccentricity self)
              = Qlt_bool (eccentricity' ps) (thresh_eccentricity self)) ->
  filter_labels_by_shape eccentricity self
  = filter_labels_by_shape eccentricity' self.
Proof.
  intros H. unfold filter_labels_by_shape.
  destruct (labels self) as [|m|tiles]; try done.
  rewrite (foldl_ext_all
             (filter_region eccentricity (thresh_area self)
                (thresh_eccentricity self))
             (filter_region eccentricity' (thresh_area self)
                (thresh_eccentricity self))); [done|].
  intros a rg. unfold filter_region. by rewrite H.
Qed.

End SecondRun.

Lemma filter_chain_second_run_witness :
  let mk := fun (l : labels_attr) (s : option nat) =>
    {| image_lx := 3; image_ly := 3;
       characteristic_dimension := 25;
       slice_bboxes := None;
       overlap := 20;
       connectivity := 1;
       thresh_area := (1, 3);
       thresh_eccentricity := 7 # 10;
       labels := l;
       segments := s |} in
  let self := mk (Labels [[0; 0; 0]; [0; 5; 0]; [0; 0; 0]]) None in
  let self1 := mk (Labels [[0; 0; 0]; [0; 1; 0]; [0; 0; 0]]) (Some 2%nat) in
  filter_chain (fun _ => 1%Q) self = Ret self1 /\
  filter_chain (fun _ => 1%Q) self1 = Ret self1.
Proof.
  intros mk self self1.
  assert (H1 : filter_chain (fun _ => 1%Q) self = Ret self1)
    by (vm_compute; reflexivity).
  split; [exact H1|].
  destruct (filter_chain_second_run (fun _ => 1%Q) self self1 H1)
    as (m1 & m2 & Hl & _ & _ & Hid).
  cbn in Hl. injection Hl as <-.
  apply Hid.
  - exists self1. split; vm_compute; reflexivity.
  - intros rg Hrg.
    assert (Hrp : regionprops [[0; 0; 0]; [0; 1; 0]; [0; 0; 0]]
                  = [{| region_label := 1; coords := [(1, 1)%nat] |}])
      by (vm_compute; reflexivity).
    rewrite Hrp in Hrg. apply list_elem_of_singleton in Hrg as ->.
    vm_compute. reflexivity.
Defined.

(** The chain is not idempotent on every raster: a label made of two
    pixels that do not touch passes an area test with minimum 2; the first
    run relabels its two pixels as two regions, which the second run
    discards. *)
Lemma filter_chain_not_idempotent :
  let mk := fun (l : labels_attr) (s : option nat) =>
    {| image_lx := 3; image_ly := 5;
       characteristic_dimension := 25;
       slice_bboxes := None;
       overlap := 20;
       connectivity := 1;
       thresh_area := (2, 5);
       thresh_eccentricity := 0;
       labels := l;
       segments := s |} in
  let self :=
    mk (Labels [[0; 0; 0; 0; 0]; [0; 1; 0; 1; 0]; [0; 0; 0; 0; 0]]) None in
  let once :=
    mk (Labels [[0; 0; 0; 0; 0]; [0; 1; 0; 2; 0]; [0; 0; 0; 0; 0]])
       (Some 3%nat) in
  let twice :=
    mk (Labels [[0; 0; 0; 0; 0]; [0; 0; 0; 0; 0]; [0; 0; 0; 0; 0]])
       (Some 1%nat) in
  (forall eccentricity : list pixel -> Q,
     (forall ps, (0 <= eccentricity ps)%Q) ->
     filter_chain eccentricity self = Ret once /\
     filter_chain eccentricity once = Ret twice) /\
  labels twice <> labels once /\ segments twice <> segments once.
Proof.
  intros mk self once twice. split; [|split; discriminate].
  intros eccentricity Hpos.
  assert (Hext : forall s, thresh_eccentricity s = 0%Q ->
            filter_chain eccentricity s = filter_chain (fun _ => 0%Q) s).
  { intros s Hs. unfold filter_chain.
    rewrite (filter_labels_by_shape_ext eccentricity (fun _ => 0%Q) s); [done|].
    intros ps. rewrite Hs. unfold Qlt_bool.
    assert (Hle : Qle_bool 0 (eccentricity ps) = true)
      by (apply Qle_bool_iff, Hpos).
    by rewrite Hle. }
  rewrite !Hext by reflexivity. split; vm_compute; reflexivity.
Qed.

(** ** What the passes keep *)

Lemma fmap_length_setitem_eq (target v : Z) (m : raster) :
  length <$> setitem_eq target v m = length <$> m.
Proof.
  unfold setitem_eq. rewrite <- list_fmap_compose. apply list_fmap_ext.
  intros i row _. cbn. apply length_fmap.
Qed.

Lemma fmap_length_pmap {A B} (f : nat -> nat -> A -> B) (m : list (list A)) :
  length <$> pmap f m = length <$> m.
Proof.
  pose proof (same_shape_pmap f m) as H. unfold same_shape in H.
  by apply bool_decide_eq_true in H.
Qed.

Lemma merges_fmap_length (m m' : raster) :
  merges m m' -> length <$> m' = length <$> m.
Proof.
  induction 1 as [|m' target v _ IH _ _ _ _]; [done|].
  by rewrite fmap_length_setitem_eq.
Qed.

Lemma merges_occurs (m m' : raster) :
  merges m m' -> forall x, occurs m' x -> occurs m x.
Proof.
  induction 1 as [|m' target v _ IH Ht _ _ Hocc]; [done|].
  intros x (r & c & Hx). rewrite item_setitem_eq in Hx by done.
  case_bool_decide; subst x; apply IH; [done|by eexists _, _].
Qed.

(** X2: what the equivalence merge keeps.  The raster returned has the
    shape of the argument; a pixel is background in it exactly when it was
    background; two pixels that carried the same label still carry the
    same label; and every label of the result is a label of the
    argument. *)
Theorem merge_labels_after_stitching_keeps (labels : raster) :
  length <$> merge_labels_after_stitching labels = length <$> labels /\
  (forall r c, item (merge_labels_after_stitching labels) r c = 0 <->
               item labels r c = 0) /\
  (forall r c r' c', item labels r c = item labels r' c' ->
     item (merge_labels_after_stitching labels) r c
     = item (merge_labels_after_stitching labels) r' c') /\
  (forall v, occurs (merge_labels_after_stitching labels) v ->
             occurs labels v).
Proof.
  assert (Hm : merges labels (merge_labels_after_stitching labels)).
  { rewrite merge_labels_after_stitching_scan. apply scan_merges. }
  destruct (merges_renaming _ _ Hm) as (f & Hf0 & Hfn & _ & Hitem & _).
  split_and!.
  - by apply merges_fmap_length.
  - intros r c. rewrite Hitem. split.
    + intros H0. destruct (decide (item labels r c = 0)) as [|Hn]; [done|].
      by destruct (Hfn _ Hn).
    + intros ->. done.
  - intros r c r' c' Heq. by rewrite !Hitem, Heq.
  - by apply merges_occurs.
Qed.

(** *** The border pass *)

(** The pixel [p] is joined, through 8-neighbours of the same label, to a
    pixel of the first or last row or column. *)
Definition touches_border (m : raster) (p : pixel) : Prop :=
  exists b, b ∈ indices m /\ on_border m b = true /\ rtc (link true m) b p.

Lemma border_cleared_item (m : raster) (p : pixel) :
  p ∈ indices m ->
  (touches_border m p -> item (border_cleared m) p.1 p.2 = 0) /\
  (~ touches_border m p ->
   item (border_cleared m) p.1 p.2 = item m p.1 p.2).
Proof.
  intros Hp. pose proof Hp as [v Hv]%elem_of_indices.
  assert (Hitem : item m p.1 p.2 = v) by (by rewrite item_at_pos, Hv).
  unfold border_cleared. cbv zeta. rewrite item_pmap, Hv. split.
  - intros (b & Hb & Hon & Hbp).
    rewrite bool_decide_eq_true_2; [done|].
    apply list_elem_of_fmap. exists b. split.
    + rewrite (item_label_components true m b Hb),
        (item_label_components true m p Hp).
      by rewrite (link_value _ _ _ _ Hbp), (root_same _ _ _ _ Hb Hbp).
    + by apply (list_elem_of_filter (fun q => on_border m q = true)).
  - intros Hnt. case_bool_decide as Hin; [|done].
    destruct (decide (v = 0)) as [->|Hv0]; [done|]. exfalso. apply Hnt.
    apply list_elem_of_fmap in Hin as (b & Heq & Hb).
    apply (list_elem_of_filter (fun q => on_border m q = true)) in Hb
      as [Hon Hb].
    rewrite (item_label_components true m b Hb),
      (item_label_components true m p Hp), Hitem in Heq.
    rewrite (bool_decide_eq_false_2 (v = 0)) in Heq by done.
    destruct (decide (item m b.1 b.2 = 0)) as [Hb0|Hb0].
    { rewrite (bool_decide_eq_true_2 _ Hb0) in Heq. lia. }
    rewrite (bool_decide_eq_false_2 _ Hb0) in Heq.
    assert (Hr : root true m p = root true m b).
    { apply (index_of_inj _ _ (roots true m));
        [apply root_in_roots; [done|congruence]
        |by apply root_in_roots|lia]. }
    exists b. split_and!; [done|done|].
    destruct (root_spec true m b Hb) as [_ Hbr].
    destruct (root_spec true m p Hp) as [_ Hpr].
    eapply rtc_trans; [exact Hbr|]. rewrite <- Hr.
    by apply link_sym.
Qed.

(** X3: the border pass.  When it returns, it stores a raster of the same
    shape and the count of its distinct values; in that raster a pixel
    that is joined to the border of the array through 8-neighbours of the
    same label is 0 (so every pixel of the first and last row and column
    is 0), and every other pixel keeps its label. *)
Theorem filter_labels_on_the_border_removes
    (self self' : SegmentationWithSAM) :
  filter_labels_on_the_border self = Ret self' ->
  exists m m' : raster,
    labels self = Labels m /\ labels self' = Labels m' /\
    segments self' = Some (count_segments m') /\
    length <$> m' = length <$> m /\
    (forall p, p ∈ indices m -> on_border m p = true ->
       item m' p.1 p.2 = 0) /\
    (forall p, p ∈ indices m -> touches_border m p ->
       item m' p.1 p.2 = 0) /\
    (forall p, p ∈ indices m -> ~ touches_border m p ->
       item m' p.1 p.2 = item m p.1 p.2).
Proof.
  intros (m & Hl & _ & ->)%filter_labels_on_the_border_inv.
  exists m, (border_cleared m). split_and!; try done.
  - unfold border_cleared. cbv zeta. apply fmap_length_pmap.
  - intros p Hp Hon. apply border_cleared_item; [done|].
    exists p. by split_and!.
  - intros p Hp. by apply border_cleared_item.
  - intros p Hp. by apply border_cleared_item.
Qed.

Lemma filter_labels_on_the_border_removes_witness :
  let self := set_labels (Labels [[1; 0; 0]; [0; 2; 0]; [0; 0; 0]])
                (init (3, 3)%nat) in
  exists m' : raster,
    filter_labels_on_the_border self
      = Ret (set_segments (Some (count_segments m'))
               (set_labels (Labels m') self)) /\
    item m' 0 0 = 0.
Proof.
  intros self.
  assert (H : filter_labels_on_the_border self
              = Ret (set_segments (Some 2%nat)
                       (set_labels
                          (Labels [[0; 0; 0]; [0; 2; 0]; [0; 0; 0]]) self)))
    by (vm_compute; reflexivity).
  destruct (filter_labels_on_the_border_removes self _ H)
    as (m & m' & Hl & Hl' & _ & _ & Hon & _).
  cbn in Hl. injection Hl as <-. cbn in Hl'. injection Hl' as <-.
  exists [[0; 0; 0]; [0; 2; 0]; [0; 0; 0]]. split; [exact H|].
  apply (Hon (0, 0)%nat).
  - apply list_elem_of_In. vm_compute. left. reflexivity.
  - vm_compute. reflexivity.
Defined.

(** *** The shape pass *)

Section ShapePass.

Variable eccentricity : list pixel -> Q.

Lemma Qlt_bool_true (x y : Q) : Qlt_bool x y = true <-> (x < y)%Q.
Proof.
  unfold Qlt_bool. rewrite negb_true_iff. split.
  - intros H. apply Qnot_le_lt. intros Hle.
    apply Qle_bool_iff in Hle. congruence.
  - intros Hlt. destruct (Qle_bool y x) eqn:E; [|done].
    apply Qle_bool_iff in E. by apply Qlt_not_le in Hlt.
Qed.

(** X4: which regions survive the shape pass.  For a raster of labels,
    the pass returns, and a pixel of a region is background in the raster
    stored exactly when the region's area is below the lower bound or
    above the upper bound, or its eccentricity is below the threshold. *)
Theorem filter_labels_by_shape_discards
    (self : SegmentationWithSAM) (m : raster) (rg : region) (p : pixel) :
  labels self = Labels m ->
  rg ∈ regionprops m -> p ∈ coords rg ->
  exists m' : raster,
    filter_labels_by_shape eccentricity self
      = Ret (set_segments (Some (count_segments m'))
               (set_labels (Labels m') self)) /\
    (item m' p.1 p.2 = 0 <->
     area rg < (thresh_area self).1 \/ (thresh_area self).2 < area rg \/
     (eccentricity (coords rg) < thresh_eccentricity self)%Q).
Proof.
  intros Hl Hrg Hp.
  pose proof (elem_of_regionprops _ _ Hrg) as [Hpos Hcoords].
  rewrite Hcoords in Hp. apply elem_of_coords_of in Hp as [Hitem _].
  exists (shape_filtered eccentricity (thresh_area self)
            (thresh_eccentricity self) m).
  split; [by apply filter_labels_by_shape_ret|].
  unfold shape_filtered. rewrite item_label_components_zero.
  assert (Hd : area_out_of_bounds (thresh_area self) rg
               || too_round eccentricity (thresh_eccentricity self) rg = true
               <-> area rg < (thresh_area self).1 \/
                   (thresh_area self).2 < area rg \/
                   (eccentricity (coords rg) < thresh_eccentricity self)%Q).
  { rewrite orb_true_iff. unfold area_out_of_bounds, too_round.
    rewrite negb_true_iff, andb_false_iff, !Z.leb_gt, Qlt_bool_true. tauto. }
  rewrite <- Hd. split.
  - intros H0.
    destruct (area_out_of_bounds (thresh_area self) rg
              || too_round eccentricity (thresh_eccentricity self) rg)
      eqn:E; [done|].
    rewrite filter_regions_keep in H0; [lia|].
    intros rg' Hrg' Heq.
    by rewrite (regionprops_label_inj m rg rg'); [|done|done|congruence].
  - intros E. by apply (filter_regions_discard _ _ _ _ _ _ _ rg).
Qed.

End ShapePass.

Lemma filter_labels_by_shape_discards_witness :
  let self := {| image_lx := 1; image_ly := 2;
                 characteristic_dimension := 25;
                 slice_bboxes := None;
                 overlap := 20;
                 connectivity := 1;
                 thresh_area := (1, 3);
                 thresh_eccentricity := 7 # 10;
                 labels := Labels [[1; 1]];
                 segments := None |} in
  exists m' : raster,
    filter_labels_by_shape (fun _ => 1 # 2) self
      = Ret (set_segments (Some (count_segments m'))
               (set_labels (Labels m') self)) /\
    item m' 0 0 = 0.
Proof.
  intros self.
  destruct (filter_labels_by_shape_discards (fun _ => 1 # 2) self [[1; 1]]
              {| region_label := 1; coords := [(0, 0); (0, 1)]%nat |}
              (0, 0)%nat)
    as (m' & Hret & Hiff).
  - reflexivity.
  - apply list_elem_of_In. vm_compute. left. reflexivity.
  - apply list_elem_of_In. vm_compute. left. reflexivity.
  - exists m'. split; [exact Hret|].
    apply Hiff. right. right. reflexivity.
Defined.

(** ** Erasing the boundaries of a crop *)

Lemma zip_with_imap_l {A B C} (f : B -> A -> C) (g : nat -> A -> B)
    (l : list A) :
  zip_with f (imap g l) l = imap (fun i x => f (g i x) x) l.
Proof.
  revert g. induction l as [|x l IH]; intros g; [done|].
  rewrite !imap_cons. cbn [zip_with]. f_equal. apply IH.
Qed.

(** Whether [find_boundaries] marks the pixel [(r, c)], of value [v]. *)
Definition is_boundary (m : raster) (r c : nat) (v : Z) : bool :=
  bool_decide (v <> 0) &&
  bool_decide (Exists (fun q => adjacent false (r, c) q = true /\
                                item m q.1 q.2 <> v) (indices m)).

Lemma erased_pmap (m : raster) :
  erased m = pmap (fun r c v => if is_boundary m r c v then 0 else v) m.
Proof.
  unfold erased, find_boundaries, pmap. rewrite zip_with_imap_l.
  apply imap_ext. intros r row _. apply zip_with_imap_l.
Qed.

(** X5: erasing the boundaries of a crop.  The call returns a raster of
    the crop's shape in which every pixel is 0 or unchanged.  A pixel that
    is kept had, on all its 4-neighbours inside the crop, its own label;
    hence two 4-neighbours that are both kept carry the same label, and
    touching regions are separated.  A labelled pixel whose 4-neighbours
    inside the crop all carry its label is kept. *)
Theorem erase_boundaries_separates (labels_crop : raster) :
  exists e : raster,
    erase_boundaries labels_crop = Ret e /\
    length <$> e = length <$> labels_crop /\
    (forall r c, item e r c = 0 \/ item e r c = item labels_crop r c) /\
    (forall p q, p ∈ indices labels_crop -> q ∈ indices labels_crop ->
       adjacent false p q = true -> item e p.1 p.2 <> 0 ->
       item labels_crop q.1 q.2 = item labels_crop p.1 p.2) /\
    (forall p q, p ∈ indices labels_crop -> q ∈ indices labels_crop ->
       adjacent false p q = true ->
       item e p.1 p.2 <> 0 -> item e q.1 q.2 <> 0 ->
       item e p.1 p.2 = item e q.1 q.2) /\
    (forall p, p ∈ indices labels_crop ->
       (forall q, q ∈ indices labels_crop -> adjacent false p q = true ->
          item labels_crop q.1 q.2 = item labels_crop p.1 p.2) ->
       item e p.1 p.2 = item labels_crop p.1 p.2).
Proof.
  exists (erased labels_crop).
  assert (Hitem : forall p, p ∈ indices labels_crop ->
            item (erased labels_crop) p.1 p.2 =
            if is_boundary labels_crop p.1 p.2 (item labels_crop p.1 p.2)
            then 0 else item labels_crop p.1 p.2).
  { intros p [v Hv]%elem_of_indices.
    rewrite erased_pmap, item_pmap, (item_at_pos labels_crop), Hv. done. }
  assert (Hkept : forall p q, p ∈ indices labels_crop ->
            q ∈ indices labels_crop -> adjacent false p q = true ->
            item (erased labels_crop) p.1 p.2 <> 0 ->
            item labels_crop q.1 q.2 = item labels_crop p.1 p.2).
  { intros p q Hp Hq Hadj Hne. rewrite (Hitem p Hp) in Hne.
    destruct (is_boundary _ _ _ _) eqn:Hb; [done|].
    unfold is_boundary in Hb. apply andb_false_iff in Hb as [Hb|Hb].
    - apply bool_decide_eq_false in Hb. by destruct Hb.
    - apply bool_decide_eq_false in Hb.
      destruct (decide (item labels_crop q.1 q.2 = item labels_crop p.1 p.2))
        as [|Hd]; [done|].
      destruct Hb. apply Exists_exists. exists q. split; [done|].
      split; [|done]. by destruct p. }
  split_and!.
  - apply erase_boundaries_ret.
  - rewrite erased_pmap. apply fmap_length_pmap.
  - intros r c. rewrite erased_pmap, item_pmap, (item_at_pos labels_crop).
    destruct (at_pos labels_crop r c) as [v|]; [|by left].
    destruct (is_boundary _ _ _ _); [by left|by right].
  - exact Hkept.
  - intros p q Hp Hq Hadj Hnp Hnq.
    pose proof (Hkept p q Hp Hq Hadj Hnp) as Heq.
    rewrite (Hitem p Hp) in Hnp |- *. rewrite (Hitem q Hq) in Hnq |- *.
    destruct (is_boundary _ p.1 _ _); [done|].
    destruct (is_boundary _ q.1 _ _); [done|]. done.
  - intros p Hp Hall. rewrite (Hitem p Hp).
    destruct (is_boundary _ _ _ _) eqn:Hb; [|done].
    unfold is_boundary in Hb. apply andb_true_iff in Hb as [_ Hb].
    apply bool_decide_eq_true in Hb.
    apply Exists_exists in Hb as (q & Hq & Hadj & Hne).
    destruct Hne. apply Hall; [done|]. by destruct p.
Qed.

(** ** The shape of the stitched raster *)

Lemma setitem_slice_fmap_length (labels src out : raster) (a b c d : Z) :
  setitem_slice labels a b c d src = Ret out ->
  length <$> out = length <$> labels.
Proof.
  unfold setitem_slice. cbv zeta. destruct (_ && _); [|done].
  intros [= <-]. apply fmap_length_pmap.
Qed.

Lemma composite_fmap_length (overlap : Z) (crop : bbox)
    (labels_crop labels out : raster) :
  composite overlap crop labels_crop labels = Ret out ->
  length <$> out = length <$> labels.
Proof.
  destruct crop as [[xmin ymin] [xmax ymax]]. unfold composite.
  assert (Hstep : forall (cond : bool) (l l' src : raster) (a b c d : Z),
            (if cond then setitem_slice l a b c d src else Ret l) = Ret l' ->
            length <$> l' = length <$> l).
  { intros [] l l' src a b c d.
    - apply setitem_slice_fmap_length.
    - by intros [= <-]. }
  destruct (if bool_decide (xmin = ymin /\ ymin = 0) then _ else _)
    as [l1|] eqn:E1; [|done].
  cbn [mbind pyresult_bind].
  destruct (if bool_decide (xmin > 0 /\ ymin = 0) then _ else _)
    as [l2|] eqn:E2; [|done].
  cbn [mbind pyresult_bind].
  destruct (if bool_decide (xmin = 0 /\ ymin > 0) then _ else _)
    as [l3|] eqn:E3; [|done].
  cbn [mbind pyresult_bind].
  intros E4.
  apply Hstep in E1, E2, E3, E4. congruence.
Qed.

Lemma label_fmap_length (m out : raster) (connectivity : Z) :
  label m connectivity = Ret out -> length <$> out = length <$> m.
Proof.
  unfold label. repeat case_bool_decide; try done;
    intros [= <-]; apply fmap_length_pmap.
Qed.

Lemma stitch_tile_fmap_length (overlap connectivity : Z)
    (st st' : list crop_data.t * raster) (nval : nat * crop_data.t) :
  stitch_tile overlap connectivity st nval = Ret st' ->
  length <$> st'.2 = length <$> st.2.
Proof.
  destruct st as [tiles labels], nval as [n val]. unfold stitch_tile.
  rewrite erase_boundaries_ret. cbn [mbind pyresult_bind].
  destruct (composite _ _ _ _) as [l1|] eqn:E1; cbn [mbind pyresult_bind];
    [|discriminate].
  destruct (label l1 connectivity) as [l2|] eqn:E2;
    cbn [mbind pyresult_bind]; [|discriminate].
  destruct (label (merge_labels_after_stitching l2) connectivity) as [l3|]
    eqn:E3; cbn [mbind pyresult_bind]; [|discriminate].
  intros [= <-]. cbn [snd].
  apply composite_fmap_length in E1. apply label_fmap_length in E2, E3.
  assert (Hm : merges l2 (merge_labels_after_stitching l2)).
  { rewrite merge_labels_after_stitching_scan. apply scan_merges. }
  apply merges_fmap_length in Hm. congruence.
Qed.

Lemma for_each_stitch_fmap_length (overlap connectivity : Z)
    (l : list (nat * crop_data.t)) :
  forall st st', for_each (stitch_tile overlap connectivity) l st = Ret st' ->
    length <$> st'.2 = length <$> st.2.
Proof.
  induction l as [|nval l IH]; intros st st'.
  - cbn. by intros [= <-].
  - cbn [for_each mbind pyresult_bind].
    destruct (stitch_tile _ _ _ _) as [st1|] eqn:E; [|discriminate].
    intros H. apply IH in H. apply stitch_tile_fmap_length in E. congruence.
Qed.

(** X6: the raster that the stitcher returns has the shape of the image,
    [(image_lx, image_ly)], whatever the crops are; and it returns one
    only for two crops or more. *)
Theorem stitch_labels_shape (self self' : SegmentationWithSAM)
    (out : raster) :
  stitch_labels self = Ret (self', Some out) ->
  length <$> out = replicate (image_lx self) (image_ly self) /\
  exists tiles, labels self = CropLabels tiles /\ (2 <= length tiles)%nat.
Proof.
  unfold stitch_labels.
  destruct (labels self) as [|m|tiles]; [done| |].
  { case_bool_decide; discriminate. }
  case_bool_decide as Hlen; [discriminate|].
  cbn [mbind pyresult_bind].
  destruct (for_each _ _ _) as [st|] eqn:Hloop; [|discriminate].
  intros [= _ <-]. apply for_each_stitch_fmap_length in Hloop.
  cbn [snd] in Hloop. split.
  - rewrite Hloop. unfold zeros. rewrite fmap_replicate.
    by rewrite length_replicate.
  - exists tiles. split; [done|lia].
Qed.

Lemma stitch_labels_shape_witness :
  let t0 := {| crop_data.crop := ((0, 0), (2, 2));
               crop_data.segments := 2;
               crop_data.labels := [[1; 1]; [1; 0]] |} in
  let t1 := {| crop_data.crop := ((1, 0), (3, 2));
               crop_data.segments := 2;
               crop_data.labels := [[0; 0]; [2; 2]] |} in
  let self := set_labels (CropLabels [t0; t1]) (init (3, 2)%nat) in
  length <$> ([[1; 0]; [0; 0]; [0; 0]] : raster) = replicate 3%nat 2%nat /\
  exists tiles, labels self = CropLabels tiles /\ (2 <= length tiles)%nat.
Proof.
  intros t0 t1 self.
  assert (H : stitch_labels self
              = Ret (set_labels
                       (CropLabels [erased_crop t0; erased_crop t1]) self,
                     Some [[1; 0]; [0; 0]; [0; 0]]))
    by (vm_compute; reflexivity).
  exact (stitch_labels_shape self _ _ H).
Defined.

(** ** What a crop writes into the stitched raster *)

(** The pixels of the accumulator that the copy of a crop writes: the
    crop's box without its leading [overlap] rows when [xmin > 0], and
    without its leading [overlap] columns when [ymin > 0]. *)
Definition written (overlap : Z) (crop : bbox) (r c : nat) : bool :=
  let '((xmin, ymin), (xmax, ymax)) := crop in
  bool_decide (xmin + skipped overlap xmin <= Z.of_nat r < xmax /\
               ymin + skipped overlap ymin <= Z.of_nat c < ymax).

(** A crop whose box lies inside an image of shape [(h, w)] and whose
    raster has the shape of the box. *)
Definition fits (h w : nat) (val : crop_data.t) : Prop :=
  let '((xmin, ymin), (xmax, ymax)) := crop_data.crop val in
  0 <= xmin < xmax /\ xmax <= Z.of_nat h /\
  0 <= ymin < ymax /\ ymax <= Z.of_nat w /\
  rect (Z.to_nat (xmax - xmin)) (Z.to_nat (ymax - ymin))
    (crop_data.labels val).

(** The local variable [labels] of [stitch_labels] after the first [k]
    iterations of its loop. *)
Definition accumulator (self : SegmentationWithSAM)
    (tiles : list crop_data.t) (k : nat) : pyresult raster :=
  st ← for_each (stitch_tile (overlap self) (connectivity self))
         (take k (enumerate tiles))
         (tiles, zeros (image_lx self) (image_ly self));
  Ret st.2.

Lemma rect_fmap_length (h w : nat) (m : raster) :
  rect h w m <-> length <$> m = replicate h w.
Proof.
  unfold rect. split.
  - intros [<- Hw]. induction m as [|row m IH]; [done|].
    apply Forall_cons in Hw as [Hrow Hw]. cbn. rewrite Hrow. f_equal.
    by apply IH.
  - intros Hm. split.
    + rewrite <- (length_fmap length m), Hm. apply length_replicate.
    + apply Forall_forall. intros row Hrow.
      assert (Hin : length row ∈ length <$> m)
        by (apply list_elem_of_fmap; by exists row).
      rewrite Hm in Hin. by apply elem_of_replicate in Hin as [? _].
Qed.

Lemma for_each_app {A S} (body : S -> A -> pyresult S) (l1 l2 : list A)
    (s : S) :
  for_each body (l1 ++ l2) s = (s' ← for_each body l1 s; for_each body l2 s').
Proof.
  revert s. induction l1 as [|x l1 IH]; intros s; [done|].
  cbn [app for_each]. destruct (body s x) as [s1|]; [|done].
  cbn [mbind pyresult_bind]. apply IH.
Qed.

(** One iteration of the loop, for a crop that fits: the crop's raster is
    replaced by its eroded version in the store, and a pixel of the new
    accumulator is background exactly when the pixel copied there is, or,
    where nothing is copied, when it was background before. *)
Lemma stitch_tile_spec (overlap connectivity : Z) (tiles : list crop_data.t)
    (labels : raster) (n : nat) (val : crop_data.t) (h w : nat) :
  0 <= overlap -> connectivity = 1 \/ connectivity = 2 ->
  rect h w labels -> fits h w val ->
  exists out : raster,
    stitch_tile overlap connectivity (tiles, labels) (n, val)
      = Ret (<[n := erased_crop val]> tiles, out) /\
    rect h w out /\
    forall r c : nat,
      item out r c = 0 <->
      (if written overlap (crop_data.crop val) r c
       then item (erased (crop_data.labels val))
              (Z.to_nat (Z.of_nat r - (crop_data.crop val).1.1))
              (Z.to_nat (Z.of_nat c - (crop_data.crop val).1.2))
       else item labels r c) = 0.
Proof.
  intros Hov Hconn Hl Hfit. unfold fits, written in *.
  destruct (crop_data.crop val) as [[xmin ymin] [xmax ymax]] eqn:Hcrop.
  destruct Hfit as (Hx & Hxh & Hy & Hyw & Hc). cbn [fst snd].
  assert (Hce : rect (Z.to_nat (xmax - xmin)) (Z.to_nat (ymax - ymin))
                  (erased (crop_data.labels val))).
  { apply rect_fmap_length. rewrite erased_pmap, fmap_length_pmap.
    by apply rect_fmap_length. }
  destruct (composite_spec overlap xmin ymin xmax ymax
              (erased (crop_data.labels val)) labels h w)
    as (pasted & Hret & Hitem); try done.
  assert (Hcomp : exists eight : bool, forall m : raster,
            label m connectivity = Ret (label_components eight m)).
  { destruct Hconn as [-> | ->]; [by exists false|by exists true]. }
  destruct Hcomp as [eight Hlabel].
  unfold stitch_tile. rewrite erase_boundaries_ret, Hcrop.
  cbn [mbind pyresult_bind]. rewrite Hret. cbn [mbind pyresult_bind].
  rewrite Hlabel. cbn [mbind pyresult_bind].
  set (l2 := label_components eight pasted).
  assert (Hm : merges l2 (merge_labels_after_stitching l2)).
  { rewrite merge_labels_after_stitching_scan. apply scan_merges. }
  rewrite Hlabel. cbn [mbind pyresult_bind].
  eexists. split; [reflexivity|]. split.
  - apply rect_fmap_length. unfold label_components at 1.
    rewrite fmap_length_pmap, (merges_fmap_length _ _ Hm). unfold l2.
    unfold label_components. rewrite fmap_length_pmap.
    rewrite (composite_fmap_length _ _ _ _ _ Hret).
    by apply rect_fmap_length.
  - intros r c. rewrite item_label_components_zero.
    destruct (merges_renaming _ _ Hm) as (f & Hf0 & Hfn & _ & Hf & _).
    rewrite Hf, <- Hitem.
    pose proof (item_label_components_zero eight pasted r c) as Hz.
    fold l2 in Hz. rewrite <- Hz. split.
    + intros H0. destruct (decide (item l2 r c = 0)) as [|Hne]; [done|].
      by destruct (Hfn _ Hne).
    + intros ->. exact Hf0.
Qed.

(** The loop runs through any number of crops that fit. *)
Lemma for_each_stitch_fits (overlap connectivity : Z) (h w : nat)
    (ims : list (nat * crop_data.t)) :
  0 <= overlap -> connectivity = 1 \/ connectivity = 2 ->
  Forall (fun im => fits h w im.2) ims ->
  forall (store : list crop_data.t) (labels : raster),
    rect h w labels ->
    exists (store' : list crop_data.t) (out : raster),
      for_each (stitch_tile overlap connectivity) ims (store, labels)
        = Ret (store', out) /\ rect h w out.
Proof.
  intros Hov Hconn. induction ims as [|[n val] ims IH]; intros Hall store labels Hl.
  - exists store, labels. by split.
  - apply Forall_cons in Hall as [Hfit Hall]. cbn [snd] in Hfit.
    destruct (stitch_tile_spec overlap connectivity store labels n val h w)
      as (l1 & Hstep & Hl1 & _); try done.
    destruct (IH Hall (<[n := erased_crop val]> store) l1 Hl1)
      as (store' & out & Hloop & Hout).
    exists store', out. split; [|done].
    cbn [for_each]. rewrite Hstep. exact Hloop.
Qed.

Lemma rect_zeros (h w : nat) : rect h w (zeros h w).
Proof. apply rect_replicate. Qed.

(** C2, amended: the band that the stitcher leaves untouched when it
    copies a crop is the crop's leading [self.overlap] rows (when
    [xmin > 0]) and leading [self.overlap] columns (when [ymin > 0]),
    whatever overlap the planner used.  For crops that fit the image,
    [stitch_labels] returns, and at every iteration of its loop a pixel of
    the accumulator is background afterwards exactly when: inside the
    crop's box and outside that band, the eroded crop is background there;
    anywhere else, the pixel was background before the iteration.  (The
    relabelling that ends the iteration renumbers the non-zero values.) *)
Theorem stitch_labels_skips_self_overlap
    (self : SegmentationWithSAM) (tiles : list crop_data.t) (k : nat)
    (val : crop_data.t) :
  labels self = CropLabels tiles -> (2 <= length tiles)%nat ->
  0 <= overlap self ->
  connectivity self = 1 \/ connectivity self = 2 ->
  Forall (fits (image_lx self) (image_ly self)) tiles ->
  tiles !! k = Some val ->
  exists before after out : raster,
    accumulator self tiles k = Ret before /\
    accumulator self tiles (S k) = Ret after /\
    accumulator self tiles (length tiles) = Ret out /\
    stitch_labels self
      = Ret (set_labels (CropLabels (erased_crop <$> tiles)) self, Some out) /\
    forall r c : nat,
      item after r c = 0 <->
      (if written (overlap self) (crop_data.crop val) r c
       then item (erased (crop_data.labels val))
              (Z.to_nat (Z.of_nat r - (crop_data.crop val).1.1))
              (Z.to_nat (Z.of_nat c - (crop_data.crop val).1.2))
       else item before r c) = 0.
Proof.
  intros Hl Hlen Hov Hconn Hfits Hk.
  set (step := stitch_tile (overlap self) (connectivity self)).
  set (h := image_lx self). set (w := image_ly self).
  assert (Hall : forall j, Forall (fun im => fits h w im.2)
                             (take j (enumerate tiles))).
  { intros j. apply Forall_take, Forall_forall.
    intros im (n & x & -> & Hx)%elem_of_lookup_imap. cbn [snd].
    rewrite Forall_forall in Hfits. apply Hfits.
    by apply list_elem_of_lookup_2 in Hx. }
  destruct (for_each_stitch_fits (overlap self) (connectivity self) h w
              (take k (enumerate tiles)) Hov Hconn (Hall k) tiles (zeros h w)
              (rect_zeros h w))
    as (store_k & before & Hbefore & Hrect).
  assert (Hfit : fits h w val).
  { rewrite Forall_forall in Hfits. apply Hfits.
    by apply list_elem_of_lookup_2 in Hk. }
  destruct (stitch_tile_spec (overlap self) (connectivity self) store_k before
              k val h w Hov Hconn Hrect Hfit)
    as (after & Hstep & _ & Hafter).
  destruct (for_each_stitch_fits (overlap self) (connectivity self) h w
              (enumerate tiles) Hov Hconn) with (store := tiles)
              (labels := zeros h w)
    as (store & out & Hloop & _).
  { rewrite <- (take_ge (enumerate tiles) (length tiles)); [apply Hall|].
    unfold enumerate. by rewrite length_imap. }
  { apply rect_zeros. }
  exists before, after, out. split_and!.
  - unfold accumulator. fold step h w. unfold step. by rewrite Hbefore.
  - unfold accumulator. fold h w.
    assert (Hk' : enumerate tiles !! k = Some (k, val)).
    { unfold enumerate. rewrite list_lookup_imap, Hk. done. }
    rewrite (take_S_r _ _ _ Hk'), for_each_app, Hbefore.
    cbn [mbind pyresult_bind for_each]. rewrite Hstep. done.
  - unfold accumulator. fold h w. rewrite take_ge.
    + by rewrite Hloop.
    + unfold enumerate. by rewrite length_imap.
  - unfold stitch_labels. rewrite Hl.
    rewrite bool_decide_eq_false_2 by lia.
    cbn [mbind pyresult_bind]. fold h w. rewrite Hloop.
    cbn [mbind pyresult_bind fst snd].
    apply (for_each_stitch_store _ _ tiles 0%nat []) in Hloop; [|done].
    cbn [app fst] in Hloop. by rewrite Hloop.
  - exact Hafter.
Qed.

Lemma stitch_labels_skips_self_overlap_witness :
  let t0 := {| crop_data.crop := ((0, 0), (3, 2));
               crop_data.segments := 2;
               crop_data.labels := [[1; 1]; [1; 1]; [1; 1]] |} in
  let t1 := {| crop_data.crop := ((1, 0), (4, 2));
               crop_data.segments := 2;
               crop_data.labels := [[0; 0]; [5; 5]; [5; 5]] |} in
  let self := {| image_lx := 4; image_ly := 2;
                 characteristic_dimension := 25;
                 slice_bboxes := None;
                 overlap := 1;
                 connectivity := 1;
                 thresh_area := (500, 5000);
                 thresh_eccentricity := 7 # 10;
                 labels := CropLabels [t0; t1];
                 segments := None |} in
  accumulator self [t0; t1] 1 = Ret [[1; 1]; [1; 1]; [1; 1]; [0; 0]] /\
  accumulator self [t0; t1] 2 = Ret [[1; 1]; [1; 1]; [0; 0]; [2; 2]] /\
  exists before after out : raster,
    accumulator self [t0; t1] 1 = Ret before /\
    accumulator self [t0; t1] 2 = Ret after /\
    accumulator self [t0; t1] (length [t0; t1]) = Ret out /\
    stitch_labels self
      = Ret (set_labels (CropLabels (erased_crop <$> [t0; t1])) self,
             Some out) /\
    forall r c : nat,
      item after r c = 0 <->
      (if written (overlap self) (crop_data.crop t1) r c
       then item (erased (crop_data.labels t1))
              (Z.to_nat (Z.of_nat r - (crop_data.crop t1).1.1))
              (Z.to_nat (Z.of_nat c - (crop_data.crop t1).1.2))
       else item before r c) = 0.
Proof.
  intros t0 t1 self. split_and!.
  - by vm_compute.
  - by vm_compute.
  - apply (stitch_labels_skips_self_overlap self [t0; t1] 1 t1).
    + reflexivity.
    + cbn. lia.
    + cbn. lia.
    + by left.
    + repeat constructor; cbn; lia.
    + reflexivity.
Defined.

(** ** What the labeller paints *)

(** Whether a mask is [True] at a position. *)
Definition covers (mk : mask) (r c : nat) : bool :=
  default false (at_pos (segmentation mk) r c).

Lemma at_pos_zip_with {A B C} (f : A -> B -> C) (M : list (list A))
    (L : list (list B)) (r c : nat) :
  at_pos (zip_with (zip_with f) M L) r c =
  x ← at_pos M r c; y ← at_pos L r c; Some (f x y).
Proof.
  unfold at_pos. rewrite lookup_zip_with.
  destruct (M !! r) as [Mr|], (L !! r) as [Lr|]; cbn; try done.
  - by rewrite lookup_zip_with.
  - by destruct (Mr !! c).
Qed.

Lemma same_shape_at_pos {A B} (M : list (list A)) (L : list (list B))
    (r c : nat) :
  length <$> M = length <$> L ->
  is_Some (at_pos M r c) <-> is_Some (at_pos L r c).
Proof.
  intros Hs. unfold at_pos.
  assert (Hr : length <$> (M !! r) = length <$> (L !! r)).
  { by rewrite <- !list_lookup_fmap, Hs. }
  destruct (M !! r) as [Mr|], (L !! r) as [Lr|]; cbn in *; try done.
  injection Hr as Hr. by rewrite !lookup_lt_is_Some, Hr.
Qed.

Lemma fmap_length_zip_with {A B C} (f : A -> B -> C) (M : list (list A))
    (L : list (list B)) :
  length <$> M = length <$> L ->
  length <$> zip_with (zip_with f) M L = length <$> L.
Proof.
  intros Hs. apply list_eq. intros r.
  assert (Hr : length <$> (M !! r) = length <$> (L !! r)).
  { by rewrite <- !list_lookup_fmap, Hs. }
  rewrite !list_lookup_fmap, lookup_zip_with.
  destruct (M !! r) as [Mr|], (L !! r) as [Lr|]; cbn in *; try done.
  injection Hr as Hr. f_equal. rewrite length_zip_with. lia.
Qed.

(** The conversion of the position: exact below 256 on either release;
    modulo 256 on numpy 1; an error from 256 on, on numpy 2. *)
Lemma painted_value_small (np : release) (idx : nat) :
  (idx < 256)%nat -> painted_value np idx = Ret (Z.of_nat idx).
Proof.
  intros Hidx. unfold painted_value, uint8. destruct np.
  - by rewrite Z.mod_small by lia.
  - by rewrite bool_decide_eq_true_2 by lia.
Qed.

Lemma painted_value_numpy1 (idx : nat) :
  painted_value numpy1 idx = Ret (Z.of_nat idx mod 256).
Proof. reflexivity. Qed.

Lemma painted_value_numpy2_large (idx : nat) :
  (256 <= idx)%nat -> painted_value numpy2 idx = Raise.
Proof.
  intros Hidx. unfold painted_value, uint8.
  by rewrite bool_decide_eq_false_2 by lia.
Qed.

Lemma paint_ret (np : release) (labels : raster) (idx : nat) (mk : mask)
    (v : Z) :
  painted_value np idx = Ret v ->
  length <$> segmentation mk = length <$> labels ->
  exists out,
    paint np labels (idx, mk) = Ret out /\
    length <$> out = length <$> labels /\
    forall r c, item out r c = if covers mk r c then v else item labels r c.
Proof.
  intros Hv Hs. unfold paint, setitem_mask, same_shape. rewrite Hv.
  cbn [mbind pyresult_bind].
  rewrite bool_decide_eq_true_2 by done.
  eexists. split; [reflexivity|]. split; [by apply fmap_length_zip_with|].
  intros r c. unfold covers. rewrite !item_at_pos, at_pos_zip_with.
  pose proof (same_shape_at_pos (segmentation mk) labels r c Hs) as Hiff.
  destruct (at_pos (segmentation mk) r c) as [b|],
    (at_pos labels r c) as [old|]; cbn; try done.
  - destruct Hiff as [Hiff _]. by destruct (Hiff ltac:(done)).
  - destruct Hiff as [_ Hiff]. by destruct (Hiff ltac:(done)).
Qed.

Lemma paint_inv (np : release) (labels out : raster) (idx : nat) (mk : mask) :
  paint np labels (idx, mk) = Ret out ->
  (exists v, painted_value np idx = Ret v) /\
  length <$> segmentation mk = length <$> labels /\
  length <$> out = length <$> labels.
Proof.
  unfold paint, setitem_mask, same_shape.
  destruct (painted_value np idx) as [v|]; cbn [mbind pyresult_bind];
    [|discriminate].
  case_bool_decide as Hs; [|discriminate].
  intros [= <-]. split_and!; [by exists v|done|by apply fmap_length_zip_with].
Qed.

(** The value of a pixel after the loop: that of the last mask of the
    list that covers it, where [f] gives the value stored for a
    position. *)
Definition painted_last (f : nat -> Z) (ims : list (nat * mask)) (r c : nat)
    (v0 : Z) : Z :=
  foldl (fun v im => if covers im.2 r c then f im.1 else v) v0 ims.

Lemma for_each_paint_ret (np : release) (f : nat -> Z)
    (ims : list (nat * mask)) :
  forall labels : raster,
    Forall (fun im => painted_value np im.1 = Ret (f im.1) /\
                      length <$> segmentation im.2 = length <$> labels) ims ->
    exists out,
      for_each (paint np) ims labels = Ret out /\
      length <$> out = length <$> labels /\
      forall r c, item out r c = painted_last f ims r c (item labels r c).
Proof.
  induction ims as [|[idx mk] ims IH]; intros labels Hall.
  - exists labels. by split_and!.
  - apply Forall_cons in Hall as [[Hv Hmk] Hall]. cbn [fst snd] in Hv, Hmk.
    destruct (paint_ret np labels idx mk _ Hv Hmk) as (l1 & Hp & Hs1 & Hitem1).
    destruct (IH l1) as (out & Hf & Hs & Hitem).
    { eapply Forall_impl; [exact Hall|]. intros im [? ?].
      split; [done|congruence]. }
    exists out. split_and!.
    + cbn [for_each]. rewrite Hp. exact Hf.
    + congruence.
    + intros r c. rewrite Hitem, Hitem1. reflexivity.
Qed.

Lemma for_each_paint_raise (np : release) (ims : list (nat * mask)) :
  forall labels : raster,
    Exists (fun im => length <$> segmentation im.2 <> length <$> labels \/
                      painted_value np im.1 = Raise) ims ->
    for_each (paint np) ims labels = Raise.
Proof.
  induction ims as [|[idx mk] ims IH]; intros labels Hex.
  - by apply Exists_nil in Hex.
  - cbn [for_each].
    destruct (paint np labels (idx, mk)) as [l1|] eqn:Hp; [|done].
    cbn [mbind pyresult_bind].
    apply paint_inv in Hp as ([v Hv] & Hmk & Hs1).
    apply IH. apply Exists_cons in Hex as [[Hbad|Hbad]|Hex].
    + done.
    + cbn [fst] in Hbad. congruence.
    + eapply Exists_impl; [exact Hex|]. intros im [Him|Him].
      * left. congruence.
      * by right.
Qed.

Lemma painted_last_skip (f : nat -> Z) (ims : list (nat * mask)) (r c : nat)
    (v0 : Z) :
  Forall (fun im => covers im.2 r c = false) ims ->
  painted_last f ims r c v0 = v0.
Proof.
  revert v0. induction ims as [|im ims IH]; intros v0 Hall; [done|].
  apply Forall_cons in Hall as [Him Hall].
  unfold painted_last. cbn [foldl]. rewrite Him. by apply IH.
Qed.

Lemma elem_of_enumerate {A} (l : list A) (im : nat * A) :
  im ∈ enumerate l -> (im.1 < length l)%nat /\ im.2 ∈ l.
Proof.
  unfold enumerate. intros (n & x & -> & Hx)%elem_of_lookup_imap. split.
  - by apply lookup_lt_Some in Hx.
  - by apply list_elem_of_lookup_2 in Hx.
Qed.

(** The pixel takes the value of the mask [mk] when no mask after [mk]
    covers it. *)
Lemma painted_last_split (f : nat -> Z) (pre post : list mask) (mk : mask)
    (r c : nat) (v0 : Z) :
  covers mk r c = true ->
  Forall (fun mk' => covers mk' r c = false) post ->
  painted_last f (enumerate (pre ++ mk :: post)) r c v0 = f (length pre).
Proof.
  intros Hc Hpost. unfold enumerate. rewrite imap_app, imap_cons.
  unfold painted_last. rewrite foldl_app. cbn [foldl snd fst].
  rewrite Hc. change (foldl _ ?v ?l) with (painted_last f l r c v).
  rewrite painted_last_skip; [f_equal; lia|].
  apply Forall_forall. intros im (n & x & -> & Hx)%elem_of_lookup_imap. cbn.
  rewrite Forall_forall in Hpost. apply Hpost.
  by apply list_elem_of_lookup_2 in Hx.
Qed.

Lemma last_covering (s : list mask) (r c : nat) :
  Forall (fun mk => covers mk r c = false) s \/
  exists pre mk post,
    s = pre ++ mk :: post /\ covers mk r c = true /\
    Forall (fun mk' => covers mk' r c = false) post.
Proof.
  induction s as [|x s IH]; [by left|].
  destruct IH as [Hnone|(pre & mk & post & -> & Hc & Hpost)].
  - destruct (covers x r c) eqn:Hx.
    + right. exists [], x, s. by split_and!.
    + left. by constructor.
  - right. exists (x :: pre), mk, post. by split_and!.
Qed.

Lemma insert_desc_perm {A} (key : A -> Z) (x : A) (l : list A) :
  insert_desc key x l ≡ₚ x :: l.
Proof.
  induction l as [|y l IH]; [done|]. cbn [insert_desc].
  destruct (key y <=? key x); [done|]. rewrite IH. apply Permutation_swap.
Qed.

Lemma sorted_desc_perm {A} (key : A -> Z) (l : list A) :
  sorted_desc key l ≡ₚ l.
Proof.
  induction l as [|x l IH]; [done|]. unfold sorted_desc. cbn [foldr].
  fold (sorted_desc key l). by rewrite insert_desc_perm, IH.
Qed.

(** Every element is followed by elements of smaller or equal key only. *)
Fixpoint descending {A} (key : A -> Z) (l : list A) : Prop :=
  match l with
  | [] => True
  | x :: l => Forall (fun y => key y <= key x) l /\ descending key l
  end.

Lemma insert_desc_descending {A} (key : A -> Z) (x : A) (l : list A) :
  descending key l -> descending key (insert_desc key x l).
Proof.
  induction l as [|y l IH]; intros Hd.
  - cbn. by split.
  - destruct Hd as [Hy Hd]. cbn [insert_desc].
    destruct (key y <=? key x) eqn:E.
    + apply Z.leb_le in E. cbn. split_and!; try done.
      constructor; [done|]. eapply Forall_impl; [exact Hy|].
      intros z Hz. cbn in Hz. lia.
    + apply Z.leb_gt in E. cbn. split; [|by apply IH].
      rewrite insert_desc_perm. constructor; [lia|done].
Qed.

Lemma sorted_desc_descending {A} (key : A -> Z) (l : list A) :
  descending key (sorted_desc key l).
Proof.
  induction l as [|x l IH]; [done|]. unfold sorted_desc. cbn [foldr].
  by apply insert_desc_descending.
Qed.

Lemma descending_before {A} (key : A -> Z) (pre post : list A) (x : A) :
  descending key (pre ++ x :: post) -> Forall (fun y => key x <= key y) pre.
Proof.
  induction pre as [|a pre IH]; intros Hd; [done|].
  destruct Hd as [Ha Hd]. constructor; [|by apply IH].
  apply Forall_app in Ha as [_ Ha]. by apply Forall_cons in Ha as [Ha _].
Qed.

Lemma item_zeros (h w r c : nat) : item (zeros h w) r c = 0.
Proof.
  unfold item, zeros.
  destruct (replicate h (replicate w 0) !! r) as [row|] eqn:Hr; [|done].
  apply lookup_replicate in Hr as [-> _]. cbn.
  destruct (replicate w 0 !! c) as [v|] eqn:Hc; [|done].
  by apply lookup_replicate in Hc as [-> _].
Qed.

Lemma fmap_length_zeros (h w : nat) : length <$> zeros h w = replicate h w.
Proof. unfold zeros. by rewrite fmap_replicate, length_replicate. Qed.

(** The labeller returns when every mask has the shape of the image and
    every position of the list can be stored; each pixel then holds the
    value of the last mask of the sorted list that covers it, or 0. *)
Lemma labels_from_sam_masks_ret (np : release) (f : nat -> Z)
    (image_shape : nat * nat) (masks : list mask) :
  masks <> [] ->
  Forall (fun mk => length <$> segmentation mk
                    = replicate image_shape.1 image_shape.2) masks ->
  (forall idx, (idx < length masks)%nat ->
     painted_value np idx = Ret (f idx)) ->
  exists out : raster,
    labels_from_sam_masks np image_shape masks = Ret (Some out) /\
    length <$> out = replicate image_shape.1 image_shape.2 /\
    forall r c,
      item out r c
      = painted_last f (enumerate (sorted_desc mask_area masks)) r c 0.
Proof.
  intros Hne Hshape Hval. unfold labels_from_sam_masks.
  rewrite bool_decide_eq_false_2 by (by destruct masks).
  set (s := sorted_desc mask_area masks).
  assert (Hperm : s ≡ₚ masks) by apply sorted_desc_perm.
  destruct (for_each_paint_ret np f (enumerate s)
              (zeros image_shape.1 image_shape.2))
    as (out & Hf & Hs & Hitem).
  { apply Forall_forall. intros im [Hlt Him]%elem_of_enumerate. split.
    - apply Hval. unfold s in Hlt. by rewrite length_sorted_desc in Hlt.
    - rewrite fmap_length_zeros. rewrite Hperm in Him.
      rewrite Forall_forall in Hshape. by apply Hshape. }
  exists out. rewrite Hf. split; [done|].
  split; [by rewrite Hs, fmap_length_zeros|].
  intros r c. by rewrite Hitem, item_zeros.
Qed.

(** X7: what the labeller paints.  For a non-empty list of at most 256
    masks that all have the shape of the image, the labeller returns, on
    either release of numpy, a raster of that shape.  A pixel that no mask
    covers is 0.  Any other pixel holds the position (counted from 0) in
    the list sorted by decreasing area of the last mask that covers it,
    which is a covering mask of least area. *)
Theorem labels_from_sam_masks_paints
    (np : release) (image_shape : nat * nat) (masks : list mask) :
  masks <> [] -> (length masks <= 256)%nat ->
  Forall (fun mk => length <$> segmentation mk
                    = replicate image_shape.1 image_shape.2) masks ->
  exists out : raster,
    labels_from_sam_masks np image_shape masks = Ret (Some out) /\
    length <$> out = replicate image_shape.1 image_shape.2 /\
    forall r c,
      (Forall (fun mk => covers mk r c = false) masks /\ item out r c = 0) \/
      (exists pre mk post,
         sorted_desc mask_area masks = pre ++ mk :: post /\
         mk ∈ masks /\ covers mk r c = true /\
         Forall (fun mk' => covers mk' r c = false) post /\
         item out r c = Z.of_nat (length pre) /\
         forall mk', mk' ∈ masks -> covers mk' r c = true ->
           mask_area mk <= mask_area mk').
Proof.
  intros Hne Hlen Hshape.
  destruct (labels_from_sam_masks_ret np Z.of_nat image_shape masks Hne Hshape)
    as (out & Hret & Hs & Hitem).
  { intros idx Hidx. apply painted_value_small. lia. }
  exists out. split; [done|]. split; [done|].
  set (s := sorted_desc mask_area masks) in *.
  assert (Hperm : s ≡ₚ masks) by apply sorted_desc_perm.
  intros r c. rewrite Hitem.
  destruct (last_covering s r c) as [Hnone|(pre & mk & post & Hsplit & Hc & Hpost)].
  - left. split.
    + apply Forall_forall. intros mk Hmk. rewrite <- Hperm in Hmk.
      rewrite Forall_forall in Hnone. by apply Hnone.
    + apply painted_last_skip. apply Forall_forall.
      intros im [_ Him]%elem_of_enumerate.
      rewrite Forall_forall in Hnone. by apply Hnone.
  - right. exists pre, mk, post.
    assert (Hmk : mk ∈ masks).
    { rewrite <- Hperm, Hsplit. apply elem_of_app. right. left. }
    split_and!; try done.
    + rewrite Hsplit. by apply painted_last_split.
    + intros mk' Hmk' Hc'. rewrite <- Hperm, Hsplit in Hmk'.
      pose proof (sorted_desc_descending mask_area masks) as Hd.
      fold s in Hd. rewrite Hsplit in Hd.
      apply elem_of_app in Hmk' as [Hin|Hin].
      * apply descending_before in Hd. rewrite Forall_forall in Hd.
        by apply Hd.
      * apply elem_of_cons in Hin as [->|Hin]; [lia|].
        rewrite Forall_forall in Hpost. rewrite (Hpost mk' Hin) in Hc'. done.
Qed.

Lemma labels_from_sam_masks_paints_witness :
  let big := {| segmentation := [[true; true]]; mask_area := 2 |} in
  let small := {| segmentation := [[false; true]]; mask_area := 1 |} in
  exists out : raster,
    labels_from_sam_masks numpy2 (1, 2)%nat [small; big] = Ret (Some out) /\
    length <$> out = replicate 1%nat 2%nat /\
    forall r c,
      (Forall (fun mk => covers mk r c = false) [small; big] /\
       item out r c = 0) \/
      (exists pre mk post,
         sorted_desc mask_area [small; big] = pre ++ mk :: post /\
         mk ∈ [small; big] /\ covers mk r c = true /\
         Forall (fun mk' => covers mk' r c = false) post /\
         item out r c = Z.of_nat (length pre) /\
         forall mk', mk' ∈ [small; big] -> covers mk' r c = true ->
           mask_area mk <= mask_area mk').
Proof.
  intros big small.
  apply (labels_from_sam_masks_paints numpy2 (1, 2)%nat [small; big]).
  - discriminate.
  - cbn. lia.
  - repeat constructor.
Defined.

(** X8: a mask whose shape is not that of the image makes the labeller
    raise, wherever the mask stands in the list, on either release of
    numpy. *)
Theorem labels_from_sam_masks_shape_mismatch
    (np : release) (image_shape : nat * nat) (masks : list mask) (mk : mask) :
  mk ∈ masks ->
  length <$> segmentation mk <> replicate image_shape.1 image_shape.2 ->
  labels_from_sam_masks np image_shape masks = Raise.
Proof.
  intros Hmk Hbad. unfold labels_from_sam_masks.
  rewrite bool_decide_eq_false_2.
  2:{ destruct masks; [by apply elem_of_nil in Hmk|done]. }
  rewrite for_each_paint_raise; [done|].
  rewrite <- (sorted_desc_perm mask_area masks) in Hmk.
  apply list_elem_of_lookup_1 in Hmk as [n Hn].
  apply Exists_exists. exists (n, mk). split.
  - unfold enumerate.
    apply (elem_of_lookup_imap_2 (fun n x => (n, x)) _ mk n Hn).
  - left. cbn. by rewrite fmap_length_zeros.
Qed.

Lemma labels_from_sam_masks_shape_mismatch_witness :
  labels_from_sam_masks numpy1 (1, 2)%nat
    [{| segmentation := [[true; true]]; mask_area := 2 |};
     {| segmentation := [[true]]; mask_area := 1 |}] = Raise.
Proof.
  apply (labels_from_sam_masks_shape_mismatch numpy1 (1, 2)%nat _
           {| segmentation := [[true]]; mask_area := 1 |}).
  - right. left.
  - discriminate.
Defined.

(** *** More than 256 masks *)

(** The mask at position [idx] of the sorted list [s] is the last one that
    is painted on the pixel [(r, c)]. *)
Definition visible (s : list mask) (idx r c : nat) : Prop :=
  exists mk,
    s !! idx = Some mk /\ covers mk r c = true /\
    Forall (fun mk' => covers mk' r c = false) (drop (S idx) s).

(** C10 as stated fails on numpy 2: with 257 masks the labeller raises
    when it stores the position 256, and returns no raster; nothing is
    painted silently. *)
Lemma labels_from_sam_masks_raises_at_257 :
  let masks := replicate 257 {| segmentation := [[true]]; mask_area := 1 |} in
  (256 < length masks)%nat /\
  labels_from_sam_masks numpy2 (1, 1)%nat masks = Raise /\
  forall out, labels_from_sam_masks numpy2 (1, 1)%nat masks <> Ret out.
Proof.
  assert (H : labels_from_sam_masks numpy2 (1, 1)%nat
                (replicate 257 {| segmentation := [[true]]; mask_area := 1 |})
              = Raise) by (by vm_compute).
  cbv zeta. split_and!.
  - rewrite length_replicate. lia.
  - exact H.
  - intros out. rewrite H. discriminate.
Qed.

(** C10, amended: what the labeller does with more than 256 masks, all of
    the shape of the image, depends on the release of numpy.  On numpy 2
    the call raises.  On numpy 1 it returns a raster in which a pixel
    whose last covering mask stands at position [idx] of the sorted list
    holds [idx] modulo 256: the masks at the positions [idx] and
    [idx + 256] are painted with the same value wherever they show. *)
Theorem labels_from_sam_masks_wraps_or_raises
    (image_shape : nat * nat) (masks : list mask) :
  (256 < length masks)%nat ->
  Forall (fun mk => length <$> segmentation mk
                    = replicate image_shape.1 image_shape.2) masks ->
  labels_from_sam_masks numpy2 image_shape masks = Raise /\
  exists out : raster,
    labels_from_sam_masks numpy1 image_shape masks = Ret (Some out) /\
    (forall idx r c,
       visible (sorted_desc mask_area masks) idx r c ->
       item out r c = Z.of_nat idx mod 256) /\
    (forall idx r c r' c',
       visible (sorted_desc mask_area masks) idx r c ->
       visible (sorted_desc mask_area masks) (idx + 256) r' c' ->
       item out r c = item out r' c').
Proof.
  intros Hlen Hshape.
  assert (Hne : masks <> []) by (destruct masks; [cbn in Hlen; lia|done]).
  split.
  - unfold labels_from_sam_masks.
    rewrite bool_decide_eq_false_2 by lia.
    rewrite for_each_paint_raise; [done|].
    destruct (lookup_lt_is_Some_2 (sorted_desc mask_area masks) 256)
      as [mk Hmk].
    { rewrite length_sorted_desc. lia. }
    apply Exists_exists. exists (256%nat, mk). split.
    + unfold enumerate.
      apply (elem_of_lookup_imap_2 (fun n x => (n, x)) _ mk 256%nat Hmk).
    + right. by apply painted_value_numpy2_large.
  - destruct (labels_from_sam_masks_ret numpy1 (fun idx => Z.of_nat idx mod 256)
                image_shape masks Hne Hshape)
      as (out & Hret & _ & Hitem).
    { intros idx _. apply painted_value_numpy1. }
    exists out. split; [done|].
    assert (Hvis : forall idx r c,
              visible (sorted_desc mask_area masks) idx r c ->
              item out r c = Z.of_nat idx mod 256).
    { intros idx r c (mk & Hmk & Hc & Hpost). rewrite Hitem.
      rewrite <- (take_drop_middle _ _ _ Hmk).
      rewrite painted_last_split by done.
      rewrite length_take. apply lookup_lt_Some in Hmk.
      f_equal. lia. }
    split; [exact Hvis|].
    intros idx r c r' c' H1 H2. rewrite (Hvis _ _ _ H1), (Hvis _ _ _ H2).
    rewrite Nat2Z.inj_add.
    change (Z.of_nat 256) with (1 * 256).
    by rewrite Z.mod_add.
Qed.

Lemma labels_from_sam_masks_wraps_or_raises_witness :
  let masks :=
    (fun k : nat =>
       {| segmentation := [[bool_decide (k = 1%nat); bool_decide (k = 257%nat)]];
          mask_area := 1000 - Z.of_nat k |}) <$> seq 0 258 in
  labels_from_sam_masks numpy1 (1, 2)%nat masks = Ret (Some [[1; 1]]) /\
  visible (sorted_desc mask_area masks) 1 0 0 /\
  visible (sorted_desc mask_area masks) 257 0 1 /\
  labels_from_sam_masks numpy2 (1, 2)%nat masks = Raise /\
  exists out : raster,
    labels_from_sam_masks numpy1 (1, 2)%nat masks = Ret (Some out) /\
    (forall idx r c,
       visible (sorted_desc mask_area masks) idx r c ->
       item out r c = Z.of_nat idx mod 256) /\
    (forall idx r c r' c',
       visible (sorted_desc mask_area masks) idx r c ->
       visible (sorted_desc mask_area masks) (idx + 256) r' c' ->
       item out r c = item out r' c').
Proof.
  intros masks. split_and!.
  - by vm_compute.
  - eexists. split_and!; [by vm_compute|by vm_compute|].
    apply (bool_decide_unpack
             (Forall (fun mk' => covers mk' 0 0 = false)
                (drop 2 (sorted_desc mask_area masks)))).
    by vm_compute.
  - eexists. split_and!; [by vm_compute|by vm_compute|].
    apply (bool_decide_unpack
             (Forall (fun mk' => covers mk' 0 1 = false)
                (drop 258 (sorted_desc mask_area masks)))).
    by vm_compute.
  - apply (labels_from_sam_masks_wraps_or_raises (1, 2)%nat masks).
    + unfold masks. rewrite length_fmap, length_seq. lia.
    + unfold masks. apply Forall_fmap, Forall_forall. by intros k _.
  - apply (labels_from_sam_masks_wraps_or_raises (1, 2)%nat masks).
    + unfold masks. rewrite length_fmap, length_seq. lia.
    + unfold masks. apply Forall_fmap, Forall_forall. by intros k _.
Defined.

(** ** The planner on any image *)

(** A box that lies inside the image and spans, on each axis, the tile
    size or the whole image when the image is smaller than a tile. *)
Definition box_clamped (image_height image_width slice_height slice_width : Z)
    (b : bbox) : Prop :=
  box_in_image image_height image_width b /\
  b.2.1 - b.1.1 = Z.min slice_width image_width /\
  b.2.2 - b.1.2 = Z.min slice_height image_height.

Section PlannerAnyImage.

Variables image_height image_width slice_height slice_width : Z.
Variables x_overlap y_overlap : Z.
Hypothesis image_ok : 1 <= image_height /\ 1 <= image_width.
Hypothesis slice_ok : 1 <= slice_height /\ 1 <= slice_width.
Hypothesis x_overlap_ok : 0 <= x_overlap < slice_width.
Hypothesis y_overlap_ok : 0 <= y_overlap < slice_height.

Lemma row_loop_clamped (fuel : nat) (y_min y_max : Z) :
  0 <= y_min -> y_max = y_min + slice_height ->
  forall (x_min x_max : Z) (acc : list bbox),
    0 <= x_min <= x_max ->
    (Z.to_nat (image_width - x_min) <= fuel)%nat ->
    exists new : list bbox,
      row_loop fuel image_height image_width slice_height slice_width
        x_overlap y_min y_max x_min x_max acc = Some (acc ++ new) /\
      Forall (fun b =>
                box_clamped image_height image_width slice_height
                  slice_width b /\
                b.2.2 = Z.min image_height y_max) new /\
      forall x, x_max <= x < image_width ->
        exists b, b ∈ new /\ b.1.1 <= x < b.2.1.
Proof.
  intros Hy0 Hy. induction fuel as [|fuel IH]; intros x_min x_max acc Hx Hf.
  - simpl. case_match eqn:Hlt.
    + apply Z.ltb_lt in Hlt. lia.
    + apply Z.ltb_ge in Hlt. exists []. rewrite app_nil_r.
      split_and!; [done|constructor|]. lia.
  - simpl. case_match eqn:Hlt.
    2:{ apply Z.ltb_ge in Hlt. exists []. rewrite app_nil_r.
        split_and!; [done|constructor|]. lia. }
    apply Z.ltb_lt in Hlt.
    set (x_max' := x_min + slice_width).
    pose (b := ((Z.max 0 (Z.min image_width x_max' - slice_width),
                Z.max 0 (Z.min image_height y_max - slice_height)),
               (Z.min image_width x_max', Z.min image_height y_max)) : bbox).
    assert (Hbox :
      (if (y_max >? image_height) || (x_max' >? image_width)
       then acc ++ [((Z.max 0 (Z.min image_width x_max' - slice_width),
                      Z.max 0 (Z.min image_height y_max - slice_height)),
                     (Z.min image_width x_max', Z.min image_height y_max))]
       else acc ++ [((x_min, y_min), (x_max', y_max))]) = acc ++ [b]).
    { unfold b. case_match eqn:Hc; [done|].
      apply orb_false_iff in Hc as [H1 H2].
      rewrite Z.gtb_ltb in H1, H2. apply Z.ltb_ge in H1, H2.
      do 2 f_equal. f_equal; f_equal; lia. }
    rewrite Hbox.
    destruct (IH (x_max' - x_overlap) x_max' (acc ++ [b]))
      as (new & Hr & Hall & Hcov).
    { unfold x_max'. lia. }
    { unfold x_max'. lia. }
    exists (b :: new). split_and!.
    + rewrite Hr. by rewrite <- app_assoc.
    + constructor; [|done]. unfold box_clamped, box_in_image, b, x_max'.
      cbn [fst snd]. lia.
    + intros x Hx'.
      destruct (decide (x < Z.min image_width x_max')) as [Hin|Hout].
      * exists b. split; [left|]. unfold b, x_max' in *. cbn [fst snd]. lia.
      * destruct (Hcov x) as (b' & Hb' & Hc'); [lia|].
        exists b'. split; [by right|done].
Qed.

Lemma col_loop_clamped (fuel_x fuel : nat) :
  (Z.to_nat image_width <= fuel_x)%nat ->
  forall (y_min y_max : Z) (acc : list bbox),
    0 <= y_min <= y_max ->
    (Z.to_nat (image_height - y_min) <= fuel)%nat ->
    exists new : list bbox,
      col_loop fuel_x fuel image_height image_width slice_height slice_width
        x_overlap y_overlap y_min y_max acc = Some (acc ++ new) /\
      Forall (box_clamped image_height image_width slice_height slice_width)
        new /\
      forall x y, 0 <= x < image_width -> y_max <= y < image_height ->
        exists b, b ∈ new /\ box_covers x y b.
Proof.
  intros Hfx. induction fuel as [|fuel IH]; intros y_min y_max acc Hy Hf.
  - simpl. case_match eqn:Hlt.
    + apply Z.ltb_lt in Hlt. lia.
    + apply Z.ltb_ge in Hlt. exists []. rewrite app_nil_r.
      split_and!; [done|constructor|]. lia.
  - simpl. case_match eqn:Hlt.
    2:{ apply Z.ltb_ge in Hlt. exists []. rewrite app_nil_r.
        split_and!; [done|constructor|]. lia. }
    apply Z.ltb_lt in Hlt.
    set (y_max' := y_min + slice_height).
    destruct (row_loop_clamped fuel_x y_min y_max' ltac:(lia) eq_refl 0 0 acc)
      as (row & Hrow & Hall & Hcov); [lia|lia|].
    rewrite Hrow.
    destruct (IH (y_max' - y_overlap) y_max' (acc ++ row))
      as (new & Hr & Hall' & Hcov').
    { unfold y_max'. lia. }
    { unfold y_max'. lia. }
    exists (row ++ new). split_and!.
    + rewrite Hr. by rewrite <- app_assoc.
    + apply Forall_app. split; [|done].
      eapply Forall_impl; [exact Hall|]. by intros b [Hb _].
    + intros x y Hx Hy'.
      destruct (decide (y < Z.min image_height y_max')) as [Hin|Hout].
      * destruct (Hcov x) as (b & Hb & Hxb); [lia|].
        exists b. split; [apply elem_of_app; by left|].
        rewrite Forall_forall in Hall.
        destruct (Hall b Hb) as [(Hin' & Hw & Hh) Htop].
        destruct b as [[xmin ymin] [xmax ymax]].
        unfold box_in_image, box_covers in *. cbn [fst snd] in *.
        unfold y_max' in *. lia.
      * destruct (Hcov' x y) as (b & Hb & Hc); [lia|lia|].
        exists b. split; [apply elem_of_app; by right|done].
Qed.

End PlannerAnyImage.

Lemma calculate_slice_bboxes_any
    (fuel : nat) (image_height image_width slice_height slice_width : Z)
    (overlap_height_ratio overlap_width_ratio : Q) :
  1 <= image_height -> 1 <= image_width ->
  1 <= slice_height -> 1 <= slice_width ->
  (0 <= overlap_height_ratio)%Q -> (overlap_height_ratio < 1)%Q ->
  (0 <= overlap_width_ratio)%Q -> (overlap_width_ratio < 1)%Q ->
  (Z.to_nat (Z.max image_height image_width) <= fuel)%nat ->
  exists boxes : list bbox,
    calculate_slice_bboxes fuel image_height image_width slice_height
      slice_width overlap_height_ratio overlap_width_ratio = Some boxes /\
    (forall b, b ∈ boxes ->
       box_clamped image_height image_width slice_height slice_width b) /\
    (forall x y, 0 <= x < image_width -> 0 <= y < image_height ->
       exists b, b ∈ boxes /\ box_covers x y b).
Proof.
  intros HH HW Hh Hw Hrh0 Hrh1 Hrw0 Hrw1 Hfuel.
  pose proof (py_int_ratio_bounds _ slice_height Hrh0 Hrh1 Hh) as Hoy.
  pose proof (py_int_ratio_bounds _ slice_width Hrw0 Hrw1 Hw) as Hox.
  destruct (col_loop_clamped image_height image_width slice_height
              slice_width _ _ (conj HH HW) (conj Hh Hw) Hox Hoy fuel fuel
              ltac:(lia) 0 0 [] ltac:(lia) ltac:(lia))
    as (boxes & Hr & Hall & Hcov).
  exists boxes. split_and!.
  - exact Hr.
  - by apply Forall_forall.
  - intros x y Hx Hy. apply Hcov; lia.
Qed.

(** X9: the planner on an image of any size.  For an image and tiles of at
    least one pixel and overlap ratios in [0, 1), the planner returns
    (given fuel for the two loops) boxes that lie inside the image and
    together cover every pixel; on each axis a box spans the tile size, or
    the whole image when the image is smaller than a tile. *)
Theorem calculate_slice_bboxes_clamped
    (fuel : nat) (image_height image_width slice_height slice_width : Z)
    (overlap_height_ratio overlap_width_ratio : Q) :
  1 <= image_height -> 1 <= image_width ->
  1 <= slice_height -> 1 <= slice_width ->
  (0 <= overlap_height_ratio)%Q -> (overlap_height_ratio < 1)%Q ->
  (0 <= overlap_width_ratio)%Q -> (overlap_width_ratio < 1)%Q ->
  (Z.to_nat (Z.max image_height image_width) <= fuel)%nat ->
  exists boxes : list bbox,
    calculate_slice_bboxes fuel image_height image_width slice_height
      slice_width overlap_height_ratio overlap_width_ratio = Some boxes /\
    (forall b, b ∈ boxes ->
       box_clamped image_height image_width slice_height slice_width b) /\
    (forall x y, 0 <= x < image_width -> 0 <= y < image_height ->
       exists b, b ∈ boxes /\ box_covers x y b).
Proof. apply calculate_slice_bboxes_any. Qed.

Lemma calculate_slice_bboxes_clamped_witness :
  exists boxes : list bbox,
    calculate_slice_bboxes 7 5 7 8 4 (1 # 2) (1 # 2) = Some boxes /\
    (forall b, b ∈ boxes -> box_clamped 5 7 8 4 b) /\
    (forall x y, 0 <= x < 7 -> 0 <= y < 5 ->
       exists b, b ∈ boxes /\ box_covers x y b).
Proof.
  apply (calculate_slice_bboxes_clamped 7 5 7 8 4 (1 # 2) (1 # 2));
    first [ lia | by vm_compute ].
Defined.

(** X10: [slice_image].  For an image of at least one pixel and a
    characteristic dimension of at least 1, the method stores (given fuel
    for the planner's loops) a plan whose boxes [[(xmin, ymin), (xmax,
    ymax)]] have their x range inside [[0, image_lx]] and their y range
    inside [[0, image_ly]], span ten times the characteristic dimension on
    each axis (or the whole axis of a smaller image), and cover every
    pixel; nothing else of the object changes. *)
Theorem slice_image_plan (fuel : nat) (self : SegmentationWithSAM) :
  (1 <= image_lx self)%nat -> (1 <= image_ly self)%nat ->
  1 <= characteristic_dimension self ->
  (Nat.max (image_lx self) (image_ly self) <= fuel)%nat ->
  exists boxes : list bbox,
    slice_image fuel self = Some (set_slice_bboxes (Some boxes) self) /\
    (forall b, b ∈ boxes ->
       box_clamped (Z.of_nat (image_ly self)) (Z.of_nat (image_lx self))
         (10 * characteristic_dimension self)
         (10 * characteristic_dimension self) b) /\
    (forall x y, 0 <= x < Z.of_nat (image_lx self) ->
                 0 <= y < Z.of_nat (image_ly self) ->
       exists b, b ∈ boxes /\ box_covers x y b).
Proof.
  intros Hlx Hly Hcd Hfuel.
  destruct (calculate_slice_bboxes_any fuel (Z.of_nat (image_ly self))
              (Z.of_nat (image_lx self))
              (10 * characteristic_dimension self)
              (10 * characteristic_dimension self) (2 # 10) (2 # 10))
    as (boxes & Hr & Hall & Hcov); try lia; try done.
  exists boxes. split_and!; [|done|done].
  unfold slice_image. by rewrite Hr.
Qed.

Lemma slice_image_plan_witness :
  exists boxes : list bbox,
    slice_image 3 (init (3, 2)%nat)
      = Some (set_slice_bboxes (Some boxes) (init (3, 2)%nat)) /\
    (forall b, b ∈ boxes -> box_clamped 2 3 250 250 b) /\
    (forall x y, 0 <= x < 3 -> 0 <= y < 2 ->
       exists b, b ∈ boxes /\ box_covers x y b).
Proof.
  apply (slice_image_plan 3 (init (3, 2)%nat)); cbn; lia.
Defined.

(** ** The planner with an overlap as wide as a tile *)

Lemma row_loop_stuck (fuel : nat)
    (image_height image_width slice_height slice_width x_overlap : Z)
    (y_min y_max : Z) :
  slice_width < image_width -> slice_width <= x_overlap ->
  forall (x_min x_max : Z) (acc : list bbox),
    x_min <= 0 -> x_max < image_width ->
    row_loop fuel image_height image_width slice_height slice_width
      x_overlap y_min y_max x_min x_max acc = None.
Proof.
  intros Hw Ho. induction fuel as [|fuel IH]; intros x_min x_max acc Hx Hm.
  - cbn [row_loop]. by rewrite (proj2 (Z.ltb_lt _ _) Hm).
  - cbn [row_loop]. rewrite (proj2 (Z.ltb_lt _ _) Hm). cbv zeta.
    apply IH; lia.
Qed.

(** X11: the planner never returns when the overlap along the width is at
    least the tile width (an overlap ratio of 1 or more) and the image, of
    at least one pixel, is wider than a tile: the left edge of the next tile does not advance, so
    the inner loop has not finished after any number of iterations. *)
Theorem calculate_slice_bboxes_never_returns
    (fuel : nat) (image_height image_width slice_height slice_width : Z)
    (overlap_height_ratio overlap_width_ratio : Q) :
  1 <= image_height -> 1 <= image_width -> slice_width < image_width ->
  slice_width <= py_int (overlap_width_ratio * inject_Z slice_width) ->
  calculate_slice_bboxes fuel image_height image_width slice_height
    slice_width overlap_height_ratio overlap_width_ratio = None.
Proof.
  intros HH HW Hw Ho. unfold calculate_slice_bboxes. cbv zeta.
  destruct fuel as [|fuel]; cbn [col_loop];
    rewrite (proj2 (Z.ltb_lt 0 image_height)) by lia; [done|].
  cbv zeta. rewrite row_loop_stuck; [done|done|done|done|lia].
Qed.

Lemma calculate_slice_bboxes_never_returns_witness :
  calculate_slice_bboxes 1000 1 3 1 2 (2 # 10) 1 = None.
Proof.
  apply (calculate_slice_bboxes_never_returns 1000 1 3 1 2 (2 # 10) 1);
    first [ lia | by vm_compute ].
Defined.

(** ** Counting the segments *)

Lemma elem_of_concat_at_pos {A} (m : list (list A)) (v : A) :
  v ∈ concat m <-> exists r c, at_pos m r c = Some v.
Proof.
  rewrite list_elem_of_In, in_concat. unfold at_pos. split.
  - intros (row & Hrow & Hv). apply list_elem_of_In in Hrow, Hv.
    apply list_elem_of_lookup_1 in Hrow as [r Hr].
    apply list_elem_of_lookup_1 in Hv as [c Hc].
    exists r, c. by rewrite Hr.
  - intros (r & c & H). destruct (m !! r) as [row|] eqn:Hr; [|done].
    cbn in H. exists row. split; apply list_elem_of_In.
    + by apply list_elem_of_lookup_2 in Hr.
    + by apply list_elem_of_lookup_2 in H.
Qed.

Lemma coords_of_nonempty (m : raster) (v : Z) :
  coords_of m v <> [] <-> v ∈ concat m.
Proof.
  rewrite elem_of_concat_at_pos. split.
  - intros Hne. destruct (coords_of m v) as [|p ps] eqn:Hc; [done|].
    assert (Hp : p ∈ coords_of m v) by (rewrite Hc; left).
    apply elem_of_coords_of in Hp as [Hv [x Hx]%elem_of_indices].
    exists p.1, p.2. rewrite item_at_pos, Hx in Hv. cbn in Hv. by subst x.
  - intros (r & c & H) Hnil.
    assert (Hp : (r, c) ∈ coords_of m v).
    { apply elem_of_coords_of. split.
      - cbn. by rewrite item_at_pos, H.
      - apply elem_of_indices. by exists v. }
    rewrite Hnil in Hp. by apply elem_of_nil in Hp.
Qed.

Lemma le_foldr_max (l : list Z) (v : Z) :
  v ∈ l -> v <= foldr Z.max 0 l.
Proof.
  induction l as [|x l IH]; intros Hv; [by apply elem_of_nil in Hv|].
  cbn [foldr]. apply elem_of_cons in Hv as [->|Hv]; [lia|].
  specialize (IH Hv). lia.
Qed.

(** The labels of the regions: the positive values of the raster, once
    each. *)
Lemma regionprops_labels (m : raster) :
  NoDup (region_label <$> regionprops m) /\
  forall v, v ∈ region_label <$> regionprops m <-> 0 < v /\ v ∈ concat m.
Proof.
  unfold regionprops. cbv zeta.
  set (top := Z.to_nat (foldr Z.max 0 (concat m))).
  set (f := fun k : nat =>
              match coords_of m (Z.of_nat (S k)) with
              | [] => None
              | p :: ps =>
                  Some {| region_label := Z.of_nat (S k); coords := p :: ps |}
              end).
  assert (Hf : forall k rg, f k = Some rg ->
            region_label rg = Z.of_nat (S k) /\
            Z.of_nat (S k) ∈ concat m).
  { intros k rg. unfold f.
    destruct (coords_of m (Z.of_nat (S k))) as [|p ps] eqn:Hc; [done|].
    intros [= <-]. split; [done|]. apply coords_of_nonempty. by rewrite Hc. }
  assert (Hmem : forall (l : list nat) v,
            v ∈ region_label <$> omap f l <->
            exists k, k ∈ l /\ v = Z.of_nat (S k) /\ v ∈ concat m).
  { intros l v. rewrite list_elem_of_fmap. split.
    - intros (rg & -> & (k & Hk & Hrg)%list_elem_of_omap).
      destruct (Hf k rg Hrg) as [-> Hin]. by exists k.
    - intros (k & Hk & -> & Hin).
      apply coords_of_nonempty in Hin.
      destruct (coords_of m (Z.of_nat (S k))) as [|p ps] eqn:Hc; [done|].
      exists {| region_label := Z.of_nat (S k); coords := p :: ps |}.
      split; [done|]. apply list_elem_of_omap. exists k. split; [done|].
      unfold f. by rewrite Hc. }
  split.
  - assert (Hnd : forall l : list nat, NoDup l ->
              NoDup (region_label <$> omap f l)).
    { induction l as [|k l IH]; intros Hl; [constructor|].
      apply NoDup_cons in Hl as [Hk Hl]. cbn [omap list_omap].
      destruct (f k) as [rg|] eqn:Hrg; [|by apply IH].
      cbn [fmap list_fmap]. apply NoDup_cons. split; [|by apply IH].
      destruct (Hf k rg Hrg) as [-> _].
      intros (k' & Hk' & Heq & _)%Hmem.
      assert (k' = k) by lia. by subst k'. }
    apply Hnd, NoDup_seq.
  - intros v. rewrite Hmem. split.
    + intros (k & _ & -> & Hin). split; [lia|done].
    + intros [Hpos Hin]. exists (Z.to_nat v - 1)%nat. split_and!.
      * apply elem_of_seq. pose proof (le_foldr_max _ _ Hin). unfold top. lia.
      * lia.
      * done.
Qed.

Lemma length_with_zero (l : list Z) :
  NoDup l -> 0 ∈ l ->
  length l = S (length (filter (fun v => v <> 0) l)).
Proof.
  induction l as [|x l IH]; intros Hnd H0; [by apply elem_of_nil in H0|].
  apply NoDup_cons in Hnd as [Hx Hnd]. rewrite filter_cons.
  destruct (decide (x <> 0)) as [Hne|He].
  - cbn [length]. f_equal. apply IH; [done|].
    apply elem_of_cons in H0 as [|]; [congruence|done].
  - assert (x = 0) as -> by (by apply dec_stable). cbn [length]. f_equal.
    f_equal. symmetry.
    assert (Hall : filter (fun v => v <> 0) l = l); [|by rewrite Hall].
    clear IH H0 Hnd He. induction l as [|y l IH]; [done|].
    rewrite filter_cons. apply not_elem_of_cons in Hx as [Hy Hx].
    destruct (decide (y <> 0)); [|done]. f_equal. by apply IH.
Qed.

(** X12: [count_segments] counts the background.  For a raster with a
    background pixel and no negative value, the count is one more than the
    number of regions that [regionprops] finds. *)
Theorem count_segments_counts_background (m : raster) :
  0 ∈ concat m -> Forall (fun v => 0 <= v) (concat m) ->
  count_segments m = S (length (regionprops m)).
Proof.
  intros H0 Hpos. unfold count_segments, count_unique.
  destruct (regionprops_labels m) as [Hnd Hmem].
  rewrite (length_with_zero (remove_dups (concat m)));
    [|apply NoDup_remove_dups|by apply elem_of_remove_dups].
  f_equal. rewrite <- (length_fmap region_label (regionprops m)).
  apply Permutation_length, NoDup_Permutation.
  - apply NoDup_filter, NoDup_remove_dups.
  - done.
  - intros v.
    rewrite (list_elem_of_filter (fun v => v <> 0)), elem_of_remove_dups, Hmem.
    rewrite Forall_forall in Hpos. split.
    + intros [Hne Hin]. split; [|done]. specialize (Hpos v Hin). lia.
    + intros [Hgt Hin]. split; [lia|done].
Qed.

Lemma count_segments_counts_background_witness :
  count_segments [[0; 3]; [3; 7]] = S (length (regionprops [[0; 3]; [3; 7]])).
Proof.
  apply (count_segments_counts_background [[0; 3]; [3; 7]]).
  - left.
  - repeat constructor; lia.
Defined.
